(** * Verification of the currency formatter (formatter.go)

    A shallow embedding of [Formatter] and of the functions of
    formatter.go, together with the parts of Go's [strings] package the
    formatter calls, followed by the theorems about them.

    Conventions of the embedding:
    - a Go [string] is a sequence of bytes: [gostring := list ascii];
      [len] is the number of bytes and [s[lo:hi]] slices bytes;
    - Go's [int] is [Z] (the sizes here stay far below 2^63: they are
      lengths of strings and widened [uint8] values);
    - a [uint8] is [N]; the code never does arithmetic on a [uint8], it
      only compares them and widens them with [int(...)];
    - a run-time panic (index or slice out of range) and a loop that has
      not finished within the fuel it was given are results of their own,
      see [result]. *)

From Stdlib Require Import ZArith Ascii String DecimalString.
From stdpp Require Import base tactics option list gmap strings.

Open Scope Z_scope.

(** ** Results of partial computations *)

Inductive result (A : Type) : Type :=
| Ok (a : A)
| Panic
| OutOfFuel.
Arguments Ok {A} a.
Arguments Panic {A}.
Arguments OutOfFuel {A}.

Definition rbind {A B} (r : result A) (k : A → result B) : result B :=
  match r with
  | Ok a => k a
  | Panic => Panic
  | OutOfFuel => OutOfFuel
  end.

Definition of_option {A} (o : option A) : result A :=
  match o with
  | Some a => Ok a
  | None => Panic
  end.

Notation "x ←r e ; k" := (rbind e (fun x => k))
  (at level 100, e at next level, right associativity, only parsing).

(** ** Go strings *)

Module GoString.

Abbreviation gostring := (list ascii).

(** A literal: the bytes of the (UTF-8 encoded) source text. *)
Definition lit (s : string) : gostring := list_ascii_of_string s.

(** [len(s)] *)
Definition len (s : gostring) : Z := Z.of_nat (length s).

(** [s[lo:hi]]: panics unless [0 <= lo <= hi <= len(s)]. *)
Definition slice (s : gostring) (lo hi : Z) : option gostring :=
  if decide (0 ≤ lo ∧ lo ≤ hi ∧ hi ≤ len s)
  then Some (take (Z.to_nat (hi - lo)) (drop (Z.to_nat lo) s))
  else None.

(** [l[i]] on a slice of strings: panics unless [0 <= i < len(l)]. *)
Definition index {A} (l : list A) (i : Z) : option A :=
  if decide (0 ≤ i) then l !! Z.to_nat i else None.

(** [strings.HasPrefix] *)
Fixpoint HasPrefix (s prefix : gostring) {struct prefix} : bool :=
  match prefix, s with
  | [], _ => true
  | p :: prefix', c :: s' => if decide (p = c) then HasPrefix s' prefix' else false
  | _ :: _, [] => false
  end.

(** The number of bytes of the UTF-8 sequence that a leading byte
    announces (1 for ASCII and for bytes that start no sequence).  The
    strings that formatter.go explodes, the values of [localDigits], are
    well-formed UTF-8, so every sequence has the bytes it announces. *)
Definition runeLen (c : ascii) : nat :=
  let n := nat_of_ascii c in
  if decide (n < 192)%nat then 1
  else if decide (n < 224)%nat then 2
  else if decide (n < 240)%nat then 3
  else if decide (n < 248)%nat then 4
  else 1.

(** [explode]: what [strings.Split(s, "")] returns, the UTF-8 sequences
    of [s] one by one.  [pending] counts the continuation bytes the
    sequence in [cur] still waits for. *)
Fixpoint explodeAux (pending : nat) (cur s : gostring) : list gostring :=
  match s with
  | [] => match cur with [] => [] | _ => [cur] end
  | c :: t =>
      match pending with
      | S p => explodeAux p (cur ++ [c]) t
      | O =>
          match cur with
          | [] => explodeAux (runeLen c - 1) [c] t
          | _ => cur :: explodeAux (runeLen c - 1) [c] t
          end
      end
  end.

Definition explode (s : gostring) : list gostring := explodeAux 0 [] s.

(** [genSplit] for a separator that is not empty: the pieces between the
    occurrences of [sep], found from left to right without overlap.
    [skip] counts the bytes of a matched separator still to pass. *)
Fixpoint splitAux (sep : gostring) (skip : nat) (cur s : gostring) : list gostring :=
  match s with
  | [] => [cur]
  | c :: t =>
      match skip with
      | S k => splitAux sep k cur t
      | O =>
          if HasPrefix s sep
          then cur :: splitAux sep (length sep - 1) [] t
          else splitAux sep 0 (cur ++ [c]) t
      end
  end.

(** [strings.Split] *)
Definition Split (s sep : gostring) : list gostring :=
  match sep with
  | [] => explode s
  | _ => splitAux sep 0 [] s
  end.

(** [strings.Join] *)
Fixpoint Join (elems : list gostring) (sep : gostring) : gostring :=
  match elems with
  | [] => []
  | [x] => x
  | x :: rest => x ++ sep ++ Join rest sep
  end.

(** [strings.Repeat] (the count is positive at its one call site; Go
    panics on a negative one). *)
Definition Repeat (s : gostring) (count : Z) : gostring :=
  mjoin (replicate (Z.to_nat count) s).

(** [strings.TrimRight] for a cutset of ASCII bytes: drops the trailing
    bytes that belong to the cutset. *)
Fixpoint TrimRight (s cutset : gostring) : gostring :=
  match s with
  | [] => []
  | c :: t =>
      match TrimRight t cutset with
      | [] => if bool_decide (c ∈ cutset) then [] else [c]
      | t' => c :: t'
      end
  end.

(** The UTF-8 encodings of the code points for which [unicode.IsSpace]
    holds: U+0009..U+000D, U+0020, U+0085, U+00A0, U+1680,
    U+2000..U+200A, U+2028, U+2029, U+202F, U+205F, U+3000. *)
Definition bytes (l : list nat) : gostring := ascii_of_nat <$> l.

Definition spaces : list gostring :=
  (bytes <$> [ [9]; [10]; [11]; [12]; [13]; [32] ]%nat) ++
  (bytes <$> [ [194; 133]; [194; 160] ]%nat) ++
  (bytes <$> [ [225; 154; 128] ]%nat) ++
  ((fun b => bytes [226; 128; b]%nat) <$> seq 128 11) ++
  (bytes <$> [ [226; 128; 168]; [226; 128; 169]; [226; 128; 175];
               [226; 129; 159]; [227; 128; 128] ]%nat).

(** The first of [encs] that starts [s], if any. *)
Definition leading (encs : list gostring) (s : gostring) : option gostring :=
  List.find (HasPrefix s) encs.

(** [strings.TrimLeftFunc(s, unicode.IsSpace)]: a code point leads [s]
    and is a space exactly when its encoding starts [s]. *)
Fixpoint trimLeftFuel (fuel : nat) (encs : list gostring) (s : gostring) : gostring :=
  match fuel with
  | O => s
  | S fuel' =>
      match leading encs s with
      | Some e => match e with
                  | [] => s
                  | _ => trimLeftFuel fuel' encs (drop (length e) s)
                  end
      | None => s
      end
  end.

Definition TrimLeftSpace (s : gostring) : gostring :=
  trimLeftFuel (length s) spaces s.

(** [strings.TrimRightFunc(s, unicode.IsSpace)]: the same from the right
    end, where the last code point is a space exactly when its encoding
    ends [s]. *)
Definition TrimRightSpace (s : gostring) : gostring :=
  reverse (trimLeftFuel (length s) (reverse <$> spaces) (reverse s)).

(** [strings.TrimSpace] *)
Definition TrimSpace (s : gostring) : gostring :=
  TrimRightSpace (TrimLeftSpace s).

(** [strings.NewReplacer(oldnew...)]: the arguments are pairs of an old
    string and its replacement. *)
Fixpoint NewReplacer (oldnew : list gostring) : list (gostring * gostring) :=
  match oldnew with
  | old :: new :: rest => (old, new) :: NewReplacer rest
  | _ => []
  end.

(** The pair that applies at the head of [s]: old strings are compared in
    argument order.  (The old strings of formatter.go are never empty.) *)
Definition matchAt (r : list (gostring * gostring)) (s : gostring)
  : option (gostring * gostring) :=
  List.find (fun p => HasPrefix s p.1) r.

(** [Replacer.Replace]: replacements are made in the order they appear
    in [s], without overlap.  [skip] counts the bytes of a matched old
    string still to pass. *)
Fixpoint replaceAux (r : list (gostring * gostring)) (skip : nat) (s : gostring) : gostring :=
  match s with
  | [] => []
  | c :: t =>
      match skip with
      | S k => replaceAux r k t
      | O =>
          match matchAt r s with
          | Some (old, new) => new ++ replaceAux r (length old - 1) t
          | None => c :: replaceAux r 0 t
          end
      end
  end.

Definition Replace (r : list (gostring * gostring)) (s : gostring) : gostring :=
  replaceAux r 0 s.

(** [strconv.Itoa] on the indices of a ten-element slice. *)
Definition Itoa (i : nat) : gostring :=
  lit (NilZero.string_of_uint (Nat.to_uint i)).

End GoString.
Import GoString.

(** ** Data of the formatter *)

(** A [uint8]. *)
Abbreviation uint8 := N (only parsing).

(** [Display]: the currency display type, a [uint8] with three named
    values. *)
Abbreviation Display := N (only parsing).
Definition DisplaySymbol : Display := 0%N.
Definition DisplayCode : Display := 1%N.
Definition DisplayNone : Display := 2%N.

(** [DefaultDigits]: the placeholder for each currency's number of
    fraction digits. *)
Definition DefaultDigits : uint8 := 255%N.

(** Modelled from the spec: the declaration of the type
    [numberingSystem] is not in formatter.go; its tags are the one the
    code names for Western Arabic digits, [numLatn], and the keys of
    [localDigits]. *)
Inductive numberingSystem : Type :=
| numLatn
| numArab
| numArabExt
| numBeng
| numDeva
| numMymr
| numTibt.

Global Instance numberingSystem_eq_dec : EqDecision numberingSystem.
Proof. solve_decision. Defined.

(** [localDigits]: the digits of each numbering system; looking up a
    missing key of a Go map gives the zero value, the empty string. *)
Definition localDigits (ns : numberingSystem) : gostring :=
  match ns with
  | numArab => lit "٠١٢٣٤٥٦٧٨٩"
  | numArabExt => lit "۰۱۲۳۴۵۶۷۸۹"
  | numBeng => lit "০১২৩৪৫৬৭৮৯"
  | numDeva => lit "०१२३४५६७८९"
  | numMymr => lit "၀၁၂၃၄၅၆၇၈၉"
  | numTibt => lit "༠༡༢༣༤༥༦༧༨༩"
  | numLatn => []
  end.

(** [currencyFormat]: the rule set of a locale, with the fields
    formatter.go reads ([numSystem] is its field [numberingSystem], which
    cannot share the name of its type here). *)
Record currencyFormat : Type := {
  pattern : gostring;
  minGroupingDigits : uint8;
  primaryGroupingSize : uint8;
  secondaryGroupingSize : uint8;
  numSystem : numberingSystem;
  decimalSeparator : gostring;
  groupingSeparator : gostring;
  plusSign : gostring;
  minusSign : gostring
}.

(** The zero value of [currencyFormat]. *)
Definition zeroFormat : currencyFormat :=
  {| pattern := []; minGroupingDigits := 0; primaryGroupingSize := 0;
     secondaryGroupingSize := 0; numSystem := numLatn;
     decimalSeparator := []; groupingSeparator := [];
     plusSign := []; minusSign := [] |}.

(** ** The heap of Go maps

    A [map[string]string] is a reference: a [Formatter] holds the address
    of its [SymbolMap], and copies of the [Formatter] share the map. *)

Abbreviation loc := positive (only parsing).
Abbreviation gomap := (gmap (list ascii) (list ascii)) (only parsing).
Abbreviation heap := (gmap positive (gmap (list ascii) (list ascii))) (only parsing).

(** A map value: [None] is the nil map. *)
Abbreviation mapref := (option positive) (only parsing).

(** Computations that read and extend the heap. *)
Definition M (A : Type) : Type := heap → result (A * heap).

Definition mret {A} (a : A) : M A := fun h => Ok (a, h).

Definition mbind {A B} (m : M A) (k : A → M B) : M B :=
  fun h => match m h with
           | Ok (a, h') => k a h'
           | Panic => Panic
           | OutOfFuel => OutOfFuel
           end.

Definition lift {A} (r : result A) : M A :=
  fun h => match r with
           | Ok a => Ok (a, h)
           | Panic => Panic
           | OutOfFuel => OutOfFuel
           end.

Notation "x ←m e ; k" := (mbind e (fun x => k))
  (at level 100, e at next level, right associativity, only parsing).

(** The contents of the map a reference points to (nothing for nil). *)
Definition deref (h : heap) (m : mapref) : gomap :=
  match m with
  | Some l => default ∅ (h !! l)
  | None => ∅
  end.

(** [v, ok := m[k]] *)
Definition mapLookup (m : mapref) (k : gostring) : M (option gostring) :=
  fun h => Ok (deref h m !! k, h).

(** [make(map[string]string)] *)
Definition makeMap : M mapref :=
  fun h => let l := fresh (dom h) in Ok (Some l, <[l := ∅]> h).

(** [m[k] = v]: the assignment by which a caller sets an override in the
    [SymbolMap] of a formatter (see the comment of the field in
    formatter.go); it panics on the nil map. *)
Definition mapStore (m : mapref) (k v : gostring) : M unit :=
  fun h => match m with
           | Some l => Ok (tt, <[l := <[k := v]> (deref h m)]> h)
           | None => Panic
           end.

(** ** The collaborators

    [Locale], [Amount], the currency metadata ([GetDigits], [GetSymbol])
    and the table [currencyFormats] are declared in other files of the
    package; the formatter uses them through this interface. *)

Class Collaborators : Type := {
  Locale : Type;
  (** [==] on [Locale], a comparable struct *)
  Locale_eq_dec :: EqDecision Locale;
  (** [Locale{Language: "en", Region: "US"}] *)
  enUSLocale : Locale;
  (** [Locale{Language: "en"}] *)
  enLocale : Locale;
  (** [Locale.String] *)
  LocaleString : Locale → gostring;
  GetParent : Locale → Locale;
  IsEmpty : Locale → bool;
  Amount : Type;
  IsNegative : Amount → bool;
  (** [Amount.Mul]: the product and an error ([None] is nil) *)
  Mul : Amount → gostring → Amount * option gostring;
  RoundTo : Amount → uint8 → Amount;
  Number : Amount → gostring;
  CurrencyCode : Amount → gostring;
  GetDigits : gostring → uint8 * bool;
  GetSymbol : gostring → Locale → gostring * bool;
  currencyFormats : gmap (list ascii) currencyFormat
}.

Section Formatter.
Context `{C : Collaborators}.

(** [Formatter] formats currency amounts. *)
Record Formatter : Type := {
  locale : Locale;
  format : currencyFormat;
  NoGrouping : bool;
  MinDigits : uint8;
  MaxDigits : uint8;
  CurrencyDisplay : Display;
  SymbolMap : mapref
}.

(** The loop of [NewFormatter]: one unit of fuel per iteration. *)
Fixpoint resolveFormat (fuel : nat) (locale : Locale) : result currencyFormat :=
  match fuel with
  | O => OutOfFuel
  | S fuel' =>
      let locale := if decide (locale = enUSLocale) then enLocale else locale in
      let localeID := LocaleString locale in
      match currencyFormats !! localeID with
      | Some format => Ok format
      | None =>
          let locale := GetParent locale in
          if IsEmpty locale then Ok zeroFormat
          else resolveFormat fuel' locale
      end
  end.

(** [NewFormatter] creates a new formatter for the given locale.  The
    fields it does not assign keep the zero values of [&Formatter{}]:
    [NoGrouping] is false and [CurrencyDisplay] is 0, [DisplaySymbol]. *)
Definition NewFormatter (fuel : nat) (locale : Locale) : M Formatter :=
  format ←m lift (resolveFormat fuel locale);
  SymbolMap ←m makeMap;
  mret {| locale := locale; format := format; NoGrouping := false;
          MinDigits := DefaultDigits; MaxDigits := 6;
          CurrencyDisplay := 0%N; SymbolMap := SymbolMap |}.

(** [Locale] returns the locale.  (The method is [Formatter_Locale]
    here: [Locale] names the type.) *)
Definition Formatter_Locale (f : Formatter) : Locale := locale f.

(** [getPattern] returns a positive or negative pattern for a currency
    amount. *)
Definition getPattern (f : Formatter) (amount : Amount) : result gostring :=
  let patterns := Split (pattern (format f)) (lit ";") in
  if IsNegative amount then
    if decide (length patterns = 1%nat) then
      p0 ←r of_option (index patterns 0);
      Ok (lit "-" ++ p0)
    else of_option (index patterns 1)
  else of_option (index patterns 0).

(** The grouping loop of [groupMajorDigits]:
    [for i := ...; i > 0; i = i - secondarySize], one unit of fuel per
    iteration. *)
Fixpoint groupLoop (fuel : nat) (majorDigits : gostring) (secondarySize : Z)
    (i : Z) (groups : list gostring) : result (list gostring) :=
  if decide (i > 0) then
    match fuel with
    | O => OutOfFuel
    | S fuel' =>
        let low := i - secondarySize in
        let low := if decide (low < 0) then 0 else low in
        g ←r of_option (slice majorDigits low i);
        groupLoop fuel' majorDigits secondarySize (i - secondarySize) (groups ++ [g])
    end
  else Ok groups.

(** The loop that reverses the groups in place:
    [for i, j := 0, len(groups)-1; i < j; i, j = i+1, j-1].  It runs at
    most [len(groups)/2] times, [steps] bounds it. *)
Fixpoint reverseLoop (steps : nat) (i j : Z) (groups : list gostring)
  : result (list gostring) :=
  if decide (i < j) then
    match steps with
    | O => OutOfFuel
    | S steps' =>
        gi ←r of_option (index groups i);
        gj ←r of_option (index groups j);
        reverseLoop steps' (i + 1) (j - 1)
          (<[Z.to_nat j := gi]> (<[Z.to_nat i := gj]> groups))
    end
  else Ok groups.

(** [groupMajorDigits] groups major digits according to the currency
    format. *)
Definition groupMajorDigits (fuel : nat) (f : Formatter) (majorDigits : gostring)
  : result gostring :=
  if NoGrouping f || (primaryGroupingSize (format f) =? 0)%N then Ok majorDigits
  else
    let numDigits := len majorDigits in
    let minDigits := Z.of_N (minGroupingDigits (format f)) in
    let primarySize := Z.of_N (primaryGroupingSize (format f)) in
    let secondarySize := Z.of_N (secondaryGroupingSize (format f)) in
    if decide (numDigits < minDigits + primarySize) then Ok majorDigits
    else
      g ←r of_option (slice majorDigits (numDigits - primarySize) numDigits);
      groups ←r groupLoop fuel majorDigits secondarySize (numDigits - primarySize) [g];
      groups ←r reverseLoop (length groups) 0 (Z.of_nat (length groups) - 1) groups;
      Ok (Join groups (groupingSeparator (format f))).

(** [localizeDigits] replaces digits with their localized equivalents. *)
Definition localizeDigits (f : Formatter) (number : gostring) : gostring :=
  if decide (numSystem (format f) = numLatn) then number
  else
    let digits := localDigits (numSystem (format f)) in
    let replacements := mjoin (imap (fun i v => [Itoa i; v]) (Split digits [])) in
    let r := NewReplacer replacements in
    Replace r number.

(** [formatNumber] formats the number for display. *)
Definition formatNumber (fuel : nat) (f : Formatter) (amount : Amount) : result gostring :=
  let minDigits := MinDigits f in
  let minDigits :=
    if decide (minDigits = DefaultDigits) then (GetDigits (CurrencyCode amount)).1
    else minDigits in
  let maxDigits := MaxDigits f in
  let maxDigits :=
    if decide (maxDigits = DefaultDigits) then (GetDigits (CurrencyCode amount)).1
    else maxDigits in
  let amount := RoundTo amount maxDigits in
  let numberParts := Split (Number amount) (lit ".") in
  let numberParts :=
    if decide (length numberParts = 1%nat) then numberParts ++ [[]] else numberParts in
  whole ←r of_option (index numberParts 0);
  majorDigits ←r groupMajorDigits fuel f whole;
  minorDigits ←r of_option (index numberParts 1);
  let minorDigits :=
    if decide (minDigits < maxDigits)%N then
      let minorDigits := TrimRight minorDigits (lit "0") in
      if decide (len minorDigits < Z.of_N minDigits)
      then minorDigits ++ Repeat (lit "0") (Z.of_N minDigits - len minorDigits)
      else minorDigits
    else minorDigits in
  (* b := strings.Builder{} *)
  let b : gostring := [] in
  let b := b ++ majorDigits in
  let b :=
    if decide (minorDigits ≠ [])
    then (b ++ decimalSeparator (format f)) ++ minorDigits
    else b in
  Ok (localizeDigits f b).

(** [formatCurrency] formats the currency for display. *)
Definition formatCurrency (f : Formatter) (currencyCode : gostring) : M gostring :=
  if decide (CurrencyDisplay f = DisplaySymbol) then
    entry ←m mapLookup (SymbolMap f) currencyCode;
    match entry with
    | Some symbol => mret symbol
    | None => mret (GetSymbol currencyCode (locale f)).1
    end
  else if decide (CurrencyDisplay f = DisplayCode) then mret currencyCode
  else mret [].

(** [Format] formats a currency amount. *)
Definition Format (fuel : nat) (f : Formatter) (amount : Amount) : M gostring :=
  pattern ←m lift (getPattern f amount);
  let amount := if IsNegative amount then (Mul amount (lit "-1")).1 else amount in
  formattedNumber ←m lift (formatNumber fuel f amount);
  formattedCurrency ←m formatCurrency f (CurrencyCode amount);
  let replacements :=
    [ lit "0.00"; formattedNumber;
      lit "¤"; formattedCurrency;
      lit "+"; plusSign (format f);
      lit "-"; minusSign (format f) ] in
  let r := NewReplacer replacements in
  let formattedAmount := Replace r pattern in
  let formattedAmount :=
    if decide (formattedCurrency = []) then TrimSpace formattedAmount
    else formattedAmount in
  mret formattedAmount.

End Formatter.

(** ** A concrete set of collaborators

    Modelled from the spec: the files that declare [Locale], [Amount],
    the currency metadata and the rule-set table are not part of
    formatter.go.  This instance follows the contracts the specification
    gives for them, with a table of five locales; the examples and the
    instances of the theorems below run on it. *)

Module Demo.

Record locale_t : Type := { Language : gostring; Region : gostring }.

Global Instance locale_t_eq_dec : EqDecision locale_t.
Proof. solve_decision. Defined.

Definition localeString (l : locale_t) : gostring :=
  match Region l with
  | [] => Language l
  | r => Language l ++ lit "-" ++ r
  end.

Definition getParent (l : locale_t) : locale_t :=
  if decide (localeString l = [] ∨ localeString l = lit "en")
  then {| Language := []; Region := [] |}
  else match Region l with
       | [] => {| Language := lit "en"; Region := [] |}
       | _ => {| Language := Language l; Region := [] |}
       end.

Definition isEmpty (l : locale_t) : bool :=
  bool_decide (Language l = [] ∧ Region l = []).

(** An amount: [coef * 10^(-scale)] of currency [ccy], negative when
    [neg]. *)
Record amount_t : Type := { neg : bool; coef : N; scale : N; ccy : gostring }.

Definition digitsOf (n : N) : gostring :=
  lit (NilZero.string_of_uint (N.to_uint n)).

Definition number (a : amount_t) : gostring :=
  let ds := digitsOf (coef a) in
  let k := N.to_nat (scale a) in
  let ds := replicate (S k - length ds) "0"%char ++ ds in
  let n := (length ds - k)%nat in
  (if neg a then lit "-" else []) ++ take n ds ++
  (if decide (k = O) then [] else lit "." ++ drop n ds).

(** Rounding half away from zero; more digits than present pad with
    zeros. *)
Definition roundTo (a : amount_t) (digits : N) : amount_t :=
  if decide (scale a ≤ digits)%N then
    {| neg := neg a; coef := (coef a * 10 ^ (digits - scale a))%N;
       scale := digits; ccy := ccy a |}
  else
    let p := (10 ^ (scale a - digits))%N in
    let q := (coef a / p)%N in
    let r := (coef a mod p)%N in
    {| neg := neg a; coef := if decide (p ≤ 2 * r)%N then (q + 1)%N else q;
       scale := digits; ccy := ccy a |}.

Definition mul (a : amount_t) (n : gostring) : amount_t * option gostring :=
  if decide (n = lit "-1")
  then ({| neg := negb (neg a); coef := coef a; scale := scale a; ccy := ccy a |}, None)
  else if decide (n = lit "1") then (a, None)
  else (a, Some (lit "unsupported factor")).

Definition getDigits (code : gostring) : N * bool :=
  if decide (code = lit "USD" ∨ code = lit "EUR") then (2%N, true)
  else if decide (code = lit "JPY") then (0%N, true)
  else if decide (code = lit "KWD") then (3%N, true)
  else (0%N, false).

Definition getSymbol (code : gostring) (l : locale_t) : gostring * bool :=
  if decide (code = lit "USD") then
    (if decide (Language l = lit "en") then lit "$" else lit "US$", true)
  else if decide (code = lit "EUR") then (lit "€", true)
  else (code, false).

Definition rules (p : string) (minG prim sec : N) (ns : numberingSystem)
    (dec grp : string) : currencyFormat :=
  {| pattern := lit p; minGroupingDigits := minG; primaryGroupingSize := prim;
     secondaryGroupingSize := sec; numSystem := ns;
     decimalSeparator := lit dec; groupingSeparator := lit grp;
     plusSign := lit "+"; minusSign := lit "-" |}.

(** The patterns of [fr] and [es] have a no-break space (U+00A0)
    between number and currency, the grouping separator of [fr] is a
    narrow no-break space (U+202F). *)
Definition table : gmap (list ascii) currencyFormat :=
  list_to_map
    [ (lit "en", rules "¤0.00" 1 3 3 numLatn "." ",");
      (lit "fr", rules "0.00 ¤" 1 3 3 numLatn "," " ");
      (lit "es", rules "0.00 ¤" 2 3 3 numLatn "," ".");
      (lit "bn", rules "0.00¤" 1 3 2 numBeng "." ",");
      (lit "en-CH", rules "¤ 0.00;¤-0.00" 1 3 3 numLatn "." "’") ].

(** The collaborators over a given rule-set table. *)
Definition collaboratorsWith (t : gmap (list ascii) currencyFormat) : Collaborators := {|
  Locale := locale_t;
  enUSLocale := {| Language := lit "en"; Region := lit "US" |};
  enLocale := {| Language := lit "en"; Region := [] |};
  LocaleString := localeString;
  GetParent := getParent;
  IsEmpty := isEmpty;
  Amount := amount_t;
  IsNegative := neg;
  Mul := mul;
  RoundTo := roundTo;
  Number := number;
  CurrencyCode := ccy;
  GetDigits := getDigits;
  GetSymbol := getSymbol;
  currencyFormats := t
|}.

Global Instance collaborators : Collaborators := collaboratorsWith table.

(** Two tables with one rule set each, whose secondary group size is
    zero: with a minimum of one grouping digit, and with none. *)
Definition stuckTable : gmap (list ascii) currencyFormat :=
  {[ lit "en" := rules "¤0.00" 1 3 0 numLatn "." "," ]}.

Definition edgeTable : gmap (list ascii) currencyFormat :=
  {[ lit "en" := rules "¤0.00" 0 3 0 numLatn "." "," ]}.

Definition loc_ (lang region : string) : locale_t :=
  {| Language := lit lang; Region := lit region |}.

(** [units * 10^(-scale)] of [code]. *)
Definition amt (negative : bool) (units scale : N) (code : string) : amount_t :=
  {| neg := negative; coef := units; scale := scale; ccy := lit code |}.

(** The string [Format] returns for a fresh formatter of the locale,
    reconfigured by [cfg], if it returns one. *)
Definition render (l : locale_t) (cfg : Formatter → Formatter) (a : amount_t)
  : result string :=
  match (f ←m NewFormatter 8 l; Format 64 (cfg f) a) ∅ with
  | Ok (s, _) => Ok (string_of_list_ascii s)
  | Panic => Panic
  | OutOfFuel => OutOfFuel
  end.

Definition withDisplay (d : Display) (f : Formatter) : Formatter :=
  {| locale := locale f; format := format f; NoGrouping := NoGrouping f;
     MinDigits := MinDigits f; MaxDigits := MaxDigits f;
     CurrencyDisplay := d; SymbolMap := SymbolMap f |}.

Definition withDigits (lo hi : N) (f : Formatter) : Formatter :=
  {| locale := locale f; format := format f; NoGrouping := NoGrouping f;
     MinDigits := lo; MaxDigits := hi;
     CurrencyDisplay := CurrencyDisplay f; SymbolMap := SymbolMap f |}.

(** ** Formatters, heaps and a rank for the examples *)

(** What [NewFormatter] returns in the empty heap: the formatter, whose
    [SymbolMap] is the first address, and the heap with an empty map
    there. *)
Definition formatterOf `{C : Collaborators} (l : Locale) (fmt : currencyFormat) : Formatter :=
  {| locale := l; format := fmt; NoGrouping := false;
     MinDigits := DefaultDigits; MaxDigits := 6;
     CurrencyDisplay := DisplaySymbol; SymbolMap := Some 1%positive |}.

Definition heap1 : heap := {[ 1%positive := ∅ ]}.

Definition enFormatter : Formatter :=
  formatterOf (loc_ "en" "US") (rules "¤0.00" 1 3 3 numLatn "." ",").
Definition frFormatter : Formatter :=
  formatterOf (loc_ "fr" "FR") (rules "0.00 ¤" 1 3 3 numLatn "," " ").
Definition bnFormatter : Formatter :=
  formatterOf (loc_ "bn" "") (rules "0.00¤" 1 3 2 numBeng "." ",").

(** The collaborators over the tables with a secondary size of zero,
    and the formatters of [en] there. *)
Definition stuck : Collaborators := collaboratorsWith stuckTable.
Definition edge : Collaborators := collaboratorsWith edgeTable.

Definition stuckFormatter : @Formatter stuck :=
  formatterOf (C := stuck) (loc_ "en" "") (rules "¤0.00" 1 3 0 numLatn "." ",").
Definition edgeFormatter : @Formatter edge :=
  formatterOf (C := edge) (loc_ "en" "") (rules "¤0.00" 0 3 0 numLatn "." ",").

(** A heap whose map overrides the symbol of one currency. *)
Definition heapUSD : heap := {[ 1%positive := {[ lit "USD" := lit "US$" ]} ]}.

(** A rank that decreases along the parent chains of the concrete
    locales. *)
Definition rank (l : locale_t) : nat :=
  match Region l with
  | _ :: _ => 2
  | [] => if decide (Language l = [] ∨ Language l = lit "en") then 0 else 1
  end.

(** ** More formatters and heaps for the examples *)

Definition withSymbolMap (m : mapref) (f : Formatter) : Formatter :=
  {| locale := locale f; format := format f; NoGrouping := NoGrouping f;
     MinDigits := MinDigits f; MaxDigits := MaxDigits f;
     CurrencyDisplay := CurrencyDisplay f; SymbolMap := m |}.

(** The second formatter made, and the heaps after it was made and after
    an override was stored in the map of the first. *)
Definition frFormatter2 : Formatter := withSymbolMap (Some 2%positive) frFormatter.
Definition heap2 : heap := <[ 2%positive := ∅ ]> heap1.
Definition heap2USD : heap := <[ 1%positive := {[ lit "USD" := lit "US$" ]} ]> heap2.

(** The formatter of the empty locale, which has no rule set. *)
Definition zeroFormatter : Formatter := formatterOf (loc_ "" "") zeroFormat.

Definition enFormatter' : Formatter :=
  formatterOf (loc_ "en" "") (rules "¤0.00" 1 3 3 numLatn "." ",").

(** ** Rule sets with a space between currency and number *)





(** A formatter whose negative sub-pattern is the positive one with a
    minus placeholder before the number. *)
Definition nlFormatter : Formatter :=
  formatterOf (loc_ "nl" "") (rules "¤ 0.00;¤ -0.00" 1 3 3 numLatn "," ".").

End Demo.

(** * The vocabulary of the statements *)

(** No code point for which [unicode.IsSpace] holds starts, or ends,
    the string. *)
Definition noLeadingSpace (s : gostring) : Prop := ∀ e, e ∈ spaces → ¬ e `prefix_of` s.
Definition noTrailingSpace (s : gostring) : Prop := ∀ e, e ∈ spaces → ¬ e `suffix_of` s.

(** The sizes of the groups to the left of the rightmost one, read from
    left to right: the first has at most [q] digits and at least one,
    the others have [q]. *)
Definition secondaryGroups (q : Z) (l : list gostring) : Prop :=
  (∀ g, l !! 0%nat = Some g → 0 < len g ∧ len g ≤ q) ∧
  (∀ k g, l !! S k = Some g → len g = q).

(** The value of an ASCII digit. *)
Definition digitValue (c : ascii) : option nat :=
  let n := nat_of_ascii c in
  if decide (48 ≤ n ∧ n ≤ 57)%nat then Some (n - 48)%nat else None.

(** The glyphs of a numbering system, in the order of their values. *)
Definition glyphs (ns : numberingSystem) : list gostring := explode (localDigits ns).

(** What a byte becomes: the glyph of its value for an ASCII digit,
    itself otherwise. *)
Definition localizedByte (ns : numberingSystem) (c : ascii) : gostring :=
  match digitValue c with
  | Some d => default [] (glyphs ns !! d)
  | None => [c]
  end.


(** The replacer that [localizeDigits] builds. *)
Definition digitReplacer (ns : numberingSystem) : list (gostring * gostring) :=
  NewReplacer (mjoin (imap (λ i v, [Itoa i; v]) (Split (localDigits ns) []))).

Section Vocabulary.
Context `{C : Collaborators}.
Implicit Types (f : Formatter) (a : Amount) (l : Locale) (fmt : currencyFormat).

(** The fraction digits in effect: the currency's own when the field
    holds [DefaultDigits]. *)
Definition effective (d : uint8) (a : Amount) : uint8 :=
  if decide (d = DefaultDigits) then (GetDigits (CurrencyCode a)).1 else d.

Definition effectiveMin f a : uint8 := effective (MinDigits f) a.
Definition effectiveMax f a : uint8 := effective (MaxDigits f) a.

(** The decimal string of the amount rounded to the effective maximum,
    and its two parts. *)
Definition roundedNumber f a : gostring := Number (RoundTo a (effectiveMax f a)).
Definition integerPart f a : gostring :=
  default [] (Split (roundedNumber f a) (lit ".") !! 0%nat).
Definition fractionalPart f a : gostring :=
  default [] (Split (roundedNumber f a) (lit ".") !! 1%nat).

(** The fractional digits that [formatNumber] writes. *)
Definition minorDigitsOf f a : gostring :=
  if decide (effectiveMin f a < effectiveMax f a)%N then
    let kept := TrimRight (fractionalPart f a) (lit "0") in
    if decide (len kept < Z.of_N (effectiveMin f a))
    then kept ++ Repeat (lit "0") (Z.of_N (effectiveMin f a) - len kept)
    else kept
  else fractionalPart f a.

(** The sub-patterns of the rule set's pattern. *)
Definition subPatterns f : list gostring := Split (pattern (format f)) (lit ";").

Definition positivePattern f : gostring := default [] (subPatterns f !! 0%nat).

(** The negative sub-pattern; without one, the positive sub-pattern
    behind a minus placeholder. *)
Definition negativePattern f : gostring :=
  match subPatterns f !! 1%nat with
  | Some p => p
  | None => lit "-" ++ positivePattern f
  end.

(** The amount that is formatted: a negative one times -1. *)
Definition magnitude a : Amount :=
  if IsNegative a then (Mul a (lit "-1")).1 else a.

(** The pattern with its placeholders replaced. *)
Definition substitute f (formattedNumber formattedCurrency pattern : gostring) : gostring :=
  let r := NewReplacer [ lit "0.00"; formattedNumber;
                         lit "¤"; formattedCurrency;
                         lit "+"; plusSign (format f);
                         lit "-"; minusSign (format f) ] in
  let formattedAmount := Replace r pattern in
  if decide (formattedCurrency = []) then TrimSpace formattedAmount else formattedAmount.

(** The formatted currency, given the contents of the [SymbolMap]. *)
Definition currencyOf f (code : gostring) (m : gomap) : gostring :=
  if decide (CurrencyDisplay f = DisplaySymbol) then
    match m !! code with
    | Some symbol => symbol
    | None => (GetSymbol code (locale f)).1
    end
  else if decide (CurrencyDisplay f = DisplayCode) then code
  else [].

(** The locale whose identifier is looked up: [en-US] counts as [en]. *)
Definition normalize l : Locale :=
  if decide (l = enUSLocale) then enLocale else l.

(** The rule set that the parent chain of a locale leads to: the one of
    the first locale of the chain whose identifier is in the table, and
    the zero value when the chain reaches the empty locale first. *)
Inductive resolves : Locale → currencyFormat → Prop :=
| resolves_found l fmt :
    currencyFormats !! LocaleString (normalize l) = Some fmt →
    resolves l fmt
| resolves_empty l :
    currencyFormats !! LocaleString (normalize l) = None →
    IsEmpty (GetParent (normalize l)) = true →
    resolves l zeroFormat
| resolves_parent l fmt :
    currencyFormats !! LocaleString (normalize l) = None →
    IsEmpty (GetParent (normalize l)) = false →
    resolves (GetParent (normalize l)) fmt →
    resolves l fmt.


End Vocabulary.

(** * Lemmas about the string functions *)

Section StringLemmas.
Implicit Types (s t e sep cur : gostring) (c : ascii).

Lemma HasPrefix_spec s e : HasPrefix s e = true ↔ e `prefix_of` s.
Proof.
  revert s. induction e as [|p e IH]; intros s; simpl.
  - split; [intros _; apply prefix_nil | done].
  - destruct s as [|c s].
    + split; [done | intros H%prefix_nil_inv; done].
    + destruct (decide (p = c)) as [->|Hne].
      * rewrite IH. split; [apply prefix_cons | apply prefix_cons_inv_2].
      * split; [done | intros H%prefix_cons_inv_1; done].
Qed.

Lemma HasPrefix_length s e : HasPrefix s e = true → (length e ≤ length s)%nat.
Proof. rewrite HasPrefix_spec. apply prefix_length. Qed.

Lemma find_None_iff {A} (P : A → bool) (l : list A) :
  List.find P l = None ↔ ∀ x, x ∈ l → P x = false.
Proof.
  induction l as [|a l IH]; simpl.
  - split; [intros _ x Hx; inversion Hx | done].
  - destruct (P a) eqn:Ha.
    + split; [done | intros H; rewrite (H a) in Ha; [done | left]].
    + rewrite IH. split.
      * intros H x Hx. inversion Hx; subst; auto.
      * intros H x Hx. apply H. by right.
Qed.

Lemma find_Some_elem {A} (P : A → bool) (l : list A) x :
  List.find P l = Some x → x ∈ l ∧ P x = true.
Proof.
  induction l as [|a l IH]; simpl; [done|].
  destruct (P a) eqn:Ha.
  - intros [= <-]. split; [left | done].
  - intros H. destruct (IH H). split; [by right | done].
Qed.

(** [Split] with a separator that is not empty returns at least one
    piece. *)
Lemma splitAux_length sep skip cur s : (1 ≤ length (splitAux sep skip cur s))%nat.
Proof.
  revert skip cur. induction s as [|c s IH]; intros skip cur; simpl; [lia|].
  destruct skip; [|apply IH].
  destruct (HasPrefix (c :: s) sep); simpl; [lia | apply IH].
Qed.

Lemma Split_length s sep : sep ≠ [] → (1 ≤ length (Split s sep))%nat.
Proof. destruct sep; [done|]. intros _. apply splitAux_length. Qed.

(** No piece is longer than the string that was split. *)
Lemma splitAux_piece sep skip cur s x :
  x ∈ splitAux sep skip cur s → (length x ≤ length cur + length s)%nat.
Proof.
  revert skip cur. induction s as [|c s IH]; intros skip cur; simpl.
  - intros ->%list_elem_of_singleton. lia.
  - destruct skip.
    + destruct (HasPrefix (c :: s) sep).
      * intros [->|H]%elem_of_cons; [lia|]. apply IH in H. simpl in H. lia.
      * intros H%IH. rewrite length_app in H. simpl in H. lia.
    + intros H%IH. lia.
Qed.

Lemma Split_piece s sep x :
  sep ≠ [] → x ∈ Split s sep → (length x ≤ length s)%nat.
Proof.
  destruct sep; [done|]. intros _ H%splitAux_piece. simpl in H. lia.
Qed.

(** [TrimRight] removes a run of cutset bytes at the end, and all of
    it. *)
Lemma TrimRight_spec s cutset :
  ∃ rest, s = TrimRight s cutset ++ rest ∧ Forall (λ c, c ∈ cutset) rest ∧
          ∀ c, last (TrimRight s cutset) = Some c → c ∉ cutset.
Proof.
  induction s as [|c s (rest & Hs & Hrest & Hlast)]; simpl.
  - exists []. done.
  - destruct (TrimRight s cutset) as [|c' t'] eqn:Ht.
    + case_bool_decide as Hc.
      * exists (c :: rest). simpl in Hs. subst s. split; [done|]. split; [by constructor | exact Hlast].
      * exists rest. simpl in Hs. subst s. split; [done|]. split; [done|].
        simpl. by intros ? [= <-].
    + exists rest. split; [by rewrite Hs at 1|]. split; [done|].
      intros c0. rewrite last_cons. destruct (last (c' :: t')) eqn:Hl; [|by apply last_None in Hl].
      intros [= <-]. by apply Hlast.
Qed.

End StringLemmas.

Section TrimLemmas.
Implicit Types (s t e : gostring) (encs : list gostring).

Lemma trimLeftFuel_suffix fuel encs s : trimLeftFuel fuel encs s `suffix_of` s.
Proof.
  revert s. induction fuel as [|fuel IH]; intros s; simpl; [done|].
  destruct (leading encs s) as [[|c e]|]; [done| |done].
  etrans; [apply IH | apply suffix_drop].
Qed.

Lemma trimLeftFuel_done fuel encs s :
  (∀ e, e ∈ encs → e ≠ []) → (length s ≤ fuel)%nat →
  leading encs (trimLeftFuel fuel encs s) = None.
Proof.
  intros Hne. revert s. induction fuel as [|fuel IH]; intros s Hlen; simpl.
  - destruct s; [|simpl in Hlen; lia].
    apply find_None_iff. intros e He. specialize (Hne e He). by destruct e.
  - destruct (leading encs s) as [e|] eqn:Hl; [|done].
    destruct (find_Some_elem _ _ _ Hl) as [He Hp].
    destruct e as [|c e]; [by destruct (Hne _ He)|].
    apply IH. apply HasPrefix_length in Hp. rewrite length_drop. simpl in *. lia.
Qed.

Lemma spaces_nonempty e : e ∈ spaces → e ≠ [].
Proof.
  assert (H : bool_decide (Forall (λ e : gostring, e ≠ []) spaces) = true)
    by (vm_compute; reflexivity).
  apply bool_decide_eq_true in H. rewrite Forall_forall in H. apply H.
Qed.

Lemma leading_None_prefix encs s :
  leading encs s = None → ∀ e, e ∈ encs → ¬ e `prefix_of` s.
Proof.
  intros H e He Hp. apply HasPrefix_spec in Hp.
  rewrite (proj1 (find_None_iff _ _) H e He) in Hp. done.
Qed.

Lemma TrimLeftSpace_trimmed s : noLeadingSpace (TrimLeftSpace s).
Proof.
  intros e He. refine (leading_None_prefix spaces _ _ e He).
  apply trimLeftFuel_done; [apply spaces_nonempty | done].
Qed.

Lemma TrimRightSpace_prefix s : TrimRightSpace s `prefix_of` s.
Proof.
  unfold TrimRightSpace. apply prefix_suffix_reverse.
  rewrite reverse_involutive. apply trimLeftFuel_suffix.
Qed.

Lemma TrimRightSpace_trimmed s : noTrailingSpace (TrimRightSpace s).
Proof.
  intros e He Hs. unfold TrimRightSpace in Hs.
  apply suffix_prefix_reverse in Hs. rewrite reverse_involutive in Hs.
  revert Hs. refine (leading_None_prefix (reverse <$> spaces) _ _ (reverse e) _).
  - apply trimLeftFuel_done.
    + intros e' (e0 & -> & He0)%list_elem_of_fmap Hnil.
      apply (spaces_nonempty e0 He0). apply (f_equal reverse) in Hnil.
      by rewrite reverse_involutive in Hnil.
    + by rewrite length_reverse.
  - apply list_elem_of_fmap. eauto.
Qed.

Lemma TrimSpace_trimmed s : noLeadingSpace (TrimSpace s) ∧ noTrailingSpace (TrimSpace s).
Proof.
  split; [|apply TrimRightSpace_trimmed].
  intros e He Hp. apply (TrimLeftSpace_trimmed s e He).
  etrans; [exact Hp | apply TrimRightSpace_prefix].
Qed.

End TrimLemmas.

Section LoopLemmas.
Implicit Types (s g : gostring) (groups gs : list gostring).

Lemma slice_Some s lo hi :
  0 ≤ lo → lo ≤ hi → hi ≤ len s →
  slice s lo hi = Some (take (Z.to_nat (hi - lo)) (drop (Z.to_nat lo) s)).
Proof. intros. unfold slice. by rewrite decide_True. Qed.

Lemma slice_length s lo hi g : slice s lo hi = Some g → len g = hi - lo.
Proof.
  unfold slice. case_decide as H; [|done]. intros [= <-].
  unfold len in *. rewrite length_take, length_drop. lia.
Qed.

Lemma index_lookup {A} (l : list A) (i : nat) : index l (Z.of_nat i) = l !! i.
Proof. unfold index. rewrite decide_True by lia. by rewrite Nat2Z.id. Qed.

(** The swap loop reverses the part of the slice between its two
    indices. *)
Lemma reverseLoop_spec steps : ∀ (pre mid post : list gostring),
  (length mid ≤ 2 * steps + 1)%nat →
  reverseLoop steps (Z.of_nat (length pre))
    (Z.of_nat (length pre) + Z.of_nat (length mid) - 1) (pre ++ mid ++ post)
  = Ok (pre ++ reverse mid ++ post).
Proof.
  induction steps as [|steps IH]; intros pre mid post Hlen.
  - destruct mid as [|a [|b mid]]; simpl in *; [| |lia].
    + by rewrite decide_False by lia.
    + by rewrite decide_False by lia.
  - destruct mid as [|a mid]; [simpl; by rewrite decide_False by lia|].
    destruct (decide (mid = [])) as [->|Hne].
    { simpl. by rewrite decide_False by lia. }
    destruct (exists_last Hne) as (mid' & b & ->). clear Hne.
    assert (Hmid : length (a :: mid' ++ [b]) = S (S (length mid')))
      by (simpl; rewrite length_app; simpl; lia).
    rewrite Hmid in Hlen.
    replace (Z.of_nat (length pre) + Z.of_nat (length (a :: mid' ++ [b])) - 1)
      with (Z.of_nat (length pre + S (length mid'))) by lia.
    replace (pre ++ (a :: mid' ++ [b]) ++ post) with (pre ++ a :: mid' ++ b :: post)
      by (simpl; by rewrite <- app_assoc).
    cbn [reverseLoop]. rewrite decide_True by lia.
    rewrite !index_lookup.
    rewrite (list_lookup_middle pre _ a) by done. cbn [of_option rbind].
    assert (Hb : (pre ++ a :: mid' ++ b :: post) !! (length pre + S (length mid'))%nat
                 = Some b).
    { replace (pre ++ a :: mid' ++ b :: post) with ((pre ++ a :: mid') ++ b :: post)
        by (by rewrite <- app_assoc).
      apply list_lookup_middle. rewrite length_app. simpl. lia. }
    rewrite Hb. cbn [of_option rbind]. rewrite !Nat2Z.id.
    replace (<[(length pre + S (length mid'))%nat:=a]>
               (<[length pre:=b]> (pre ++ a :: mid' ++ b :: post)))
      with ((pre ++ [b]) ++ mid' ++ ([a] ++ post)).
    2:{ replace (length pre) with (length pre + 0)%nat at 2 by lia.
        rewrite insert_app_r. simpl. rewrite insert_app_r. simpl.
        rewrite <- !app_assoc. simpl. f_equal. f_equal.
        replace (length mid') with (length mid' + 0)%nat at 1 by lia.
        by rewrite insert_app_r. }
    replace (Z.of_nat (length pre) + 1) with (Z.of_nat (length (pre ++ [b])))
      by (rewrite length_app; simpl; lia).
    replace (Z.of_nat (length pre + S (length mid')) - 1)
      with (Z.of_nat (length (pre ++ [b])) + Z.of_nat (length mid') - 1)
      by (rewrite length_app; simpl; lia).
    rewrite IH by lia.
    f_equal. rewrite reverse_cons, reverse_snoc. simpl.
    by rewrite <- !app_assoc.
Qed.

Lemma reverseLoop_reverse groups :
  reverseLoop (length groups) 0 (Z.of_nat (length groups) - 1) groups = Ok (reverse groups).
Proof.
  pose proof (reverseLoop_spec (length groups) [] groups []) as H.
  simpl in H. rewrite !app_nil_r in H. apply H. lia.
Qed.

End LoopLemmas.

Section GroupLoop.
Implicit Types (s g : gostring) (groups gs : list gostring).

Lemma groupLoop_done fuel s q i groups :
  i ≤ 0 → groupLoop fuel s q i groups = Ok groups.
Proof. intros. destruct fuel; simpl; by rewrite decide_False by lia. Qed.

(** With a secondary size of zero the index stays where it is. *)
Lemma groupLoop_stuck s i : 0 < i → i ≤ len s →
  ∀ fuel groups, groupLoop fuel s 0 i groups = OutOfFuel.
Proof.
  intros Hi Hle. induction fuel as [|fuel IH]; intros groups; simpl;
    rewrite decide_True by lia; [done|].
  rewrite decide_False by lia. rewrite slice_Some by lia. simpl.
  rewrite Z.sub_0_r. apply IH.
Qed.

(** No slice of the loop is out of range. *)
Lemma groupLoop_no_panic s q : 0 ≤ q →
  ∀ fuel i groups, i ≤ len s → groupLoop fuel s q i groups ≠ Panic.
Proof.
  intros Hq. induction fuel as [|fuel IH]; intros i groups Hi; simpl;
    case_decide; try done.
  case_decide; rewrite slice_Some by lia; simpl; apply IH; lia.
Qed.

(** With a positive secondary size the loop ends, having cut the first
    [i] bytes into groups. *)
Lemma groupLoop_spec s q : 0 < q →
  ∀ fuel i groups, 0 ≤ i → i ≤ len s → i ≤ Z.of_nat fuel →
  ∃ gs, groupLoop fuel s q i groups = Ok (groups ++ gs) ∧
        mjoin (reverse gs) = take (Z.to_nat i) s ∧
        secondaryGroups q (reverse gs) ∧
        (0 < i → gs ≠ []).
Proof.
  intros Hq. induction fuel as [|fuel IH]; intros i groups Hi0 Hi Hfuel.
  { exists []. rewrite groupLoop_done by lia. rewrite app_nil_r.
    replace i with 0 by lia. repeat split; try done; lia. }
  destruct (decide (i > 0)) as [Hpos|Hnpos].
  2:{ exists []. rewrite groupLoop_done by lia. rewrite app_nil_r.
      replace i with 0 by lia. repeat split; try done; lia. }
  cbn [groupLoop]. rewrite decide_True by done.
  destruct (decide (i - q ≤ 0)) as [Hlast|Hmore].
  - (* the leftmost group *)
    assert (Hlow : (if decide (i - q < 0) then 0 else i - q) = 0)
      by (case_decide; lia).
    rewrite Hlow. rewrite slice_Some by lia. cbn [of_option rbind].
    rewrite groupLoop_done by lia.
    rewrite Z.sub_0_r. simpl. rewrite drop_0.
    exists [take (Z.to_nat i) s]. split; [done|].
    rewrite reverse_singleton. simpl. rewrite app_nil_r. split; [done|].
    split; [|done]. split.
    + intros g [= <-]. unfold len in *. rewrite length_take. lia.
    + intros k g. done.
  - rewrite decide_False by lia. rewrite slice_Some by lia. cbn [of_option rbind].
    replace (i - (i - q)) with q by lia.
    set (g := take (Z.to_nat q) (drop (Z.to_nat (i - q)) s)).
    destruct (IH (i - q) (groups ++ [g])) as (gs & Hrun & Hcat & [Hfirst Hrest] & Hne);
      [lia..|].
    exists (g :: gs). rewrite Hrun, <- app_assoc. split; [done|].
    assert (Hg : len g = q).
    { unfold g, len in *. rewrite length_take, length_drop. lia. }
    rewrite reverse_cons. split; [|split].
    + rewrite join_app, Hcat. simpl. rewrite app_nil_r. unfold g.
      rewrite take_take_drop. f_equal. lia.
    + assert (Hgs : reverse gs ≠ []).
      { intros Hnil. apply Hne; [lia|]. apply (f_equal reverse) in Hnil.
        by rewrite reverse_involutive in Hnil. }
      split.
      * intros g0. destruct (reverse gs) eqn:Hr; [done|]. simpl.
        intros [= <-]. by apply Hfirst.
      * intros k g0 [[Hk Hin]|[Hk <-]]%lookup_snoc_Some; [by eapply Hrest | done].
    + done.
Qed.

End GroupLoop.

Section GroupMajorDigits.
Context `{C : Collaborators}.
Implicit Types (f : Formatter) (s : gostring).

Lemma groupMajorDigits_unfold fuel f s :
  NoGrouping f = false → primaryGroupingSize (format f) ≠ 0%N →
  Z.of_N (minGroupingDigits (format f)) + Z.of_N (primaryGroupingSize (format f)) ≤ len s →
  groupMajorDigits fuel f s =
  (groups ←r groupLoop fuel s (Z.of_N (secondaryGroupingSize (format f)))
       (len s - Z.of_N (primaryGroupingSize (format f)))
       [drop (Z.to_nat (len s - Z.of_N (primaryGroupingSize (format f)))) s];
   Ok (Join (reverse groups) (groupingSeparator (format f)))).
Proof.
  intros Hng Hp Hlen. unfold groupMajorDigits. rewrite Hng.
  apply N.eqb_neq in Hp. rewrite Hp. simpl.
  rewrite decide_False by lia. rewrite slice_Some by lia. cbn [of_option rbind].
  replace (len s - (len s - Z.of_N (primaryGroupingSize (format f))))
    with (Z.of_N (primaryGroupingSize (format f))) by lia.
  rewrite take_ge.
  2:{ rewrite length_drop. unfold len in *. lia. }
  destruct (groupLoop _ _ _ _ _) as [groups| |]; simpl; [|done..].
  by rewrite reverseLoop_reverse.
Qed.

End GroupMajorDigits.

Section GroupingTheorems.
Context `{C : Collaborators}.
Implicit Types (f : Formatter) (s : gostring).

Lemma groupMajorDigits_off fuel f s :
  NoGrouping f = true ∨ primaryGroupingSize (format f) = 0%N →
  groupMajorDigits fuel f s = Ok s.
Proof.
  unfold groupMajorDigits. intros [-> | ->]; [done|]. by rewrite orb_true_r.
Qed.

Lemma groupMajorDigits_short fuel f s :
  len s < Z.of_N (minGroupingDigits (format f)) + Z.of_N (primaryGroupingSize (format f)) →
  groupMajorDigits fuel f s = Ok s.
Proof.
  intros H. unfold groupMajorDigits. destruct (_ || _); [done|].
  by rewrite decide_True by lia.
Qed.

Lemma groupMajorDigits_no_panic fuel f s : groupMajorDigits fuel f s ≠ Panic.
Proof.
  destruct (NoGrouping f) eqn:Hng; [by rewrite groupMajorDigits_off by auto|].
  destruct (decide (primaryGroupingSize (format f) = 0%N)) as [Hp|Hp];
    [by rewrite groupMajorDigits_off by auto|].
  destruct (decide (len s < Z.of_N (minGroupingDigits (format f))
                            + Z.of_N (primaryGroupingSize (format f)))) as [Hs|Hs];
    [by rewrite groupMajorDigits_short|].
  rewrite groupMajorDigits_unfold by (done || lia).
  pose proof (groupLoop_no_panic s (Z.of_N (secondaryGroupingSize (format f)))
    ltac:(lia) fuel (len s - Z.of_N (primaryGroupingSize (format f)))
    [drop (Z.to_nat (len s - Z.of_N (primaryGroupingSize (format f)))) s] ltac:(lia)) as H.
  destruct (groupLoop _ _ _ _ _); done.
Qed.

Lemma groupMajorDigits_grouped fuel f s :
  NoGrouping f = false → primaryGroupingSize (format f) ≠ 0%N →
  secondaryGroupingSize (format f) ≠ 0%N →
  Z.of_N (minGroupingDigits (format f)) + Z.of_N (primaryGroupingSize (format f)) ≤ len s →
  (length s ≤ fuel)%nat →
  ∃ groups last,
    groupMajorDigits fuel f s = Ok (Join (groups ++ [last]) (groupingSeparator (format f))) ∧
    mjoin groups ++ last = s ∧
    len last = Z.of_N (primaryGroupingSize (format f)) ∧
    secondaryGroups (Z.of_N (secondaryGroupingSize (format f))) groups.
Proof.
  intros Hng Hp Hq Hlen Hfuel. rewrite groupMajorDigits_unfold by done.
  set (p := Z.of_N (primaryGroupingSize (format f))) in *.
  destruct (groupLoop_spec s (Z.of_N (secondaryGroupingSize (format f))) ltac:(lia)
              fuel (len s - p) [drop (Z.to_nat (len s - p)) s])
    as (gs & -> & Hcat & Hshape & _); [unfold len in *; lia..|].
  exists (reverse gs), (drop (Z.to_nat (len s - p)) s). cbn [rbind].
  split; [by rewrite reverse_app|]. split; [by rewrite Hcat, take_drop|].
  split; [|done]. unfold len in *. rewrite length_drop. lia.
Qed.

Lemma groupMajorDigits_total fuel f s :
  (primaryGroupingSize (format f) ≠ 0%N → secondaryGroupingSize (format f) ≠ 0%N) →
  (length s ≤ fuel)%nat →
  ∃ out, groupMajorDigits fuel f s = Ok out.
Proof.
  intros Hq Hfuel.
  destruct (NoGrouping f) eqn:Hng; [rewrite groupMajorDigits_off by auto; eauto|].
  destruct (decide (primaryGroupingSize (format f) = 0%N)) as [Hp|Hp];
    [rewrite groupMajorDigits_off by auto; eauto|].
  destruct (decide (len s < Z.of_N (minGroupingDigits (format f))
                            + Z.of_N (primaryGroupingSize (format f)))) as [Hs|Hs];
    [rewrite groupMajorDigits_short by done; eauto|].
  destruct (groupMajorDigits_grouped fuel f s) as (groups & last & -> & _); eauto; lia.
Qed.

Lemma groupMajorDigits_diverges f s :
  NoGrouping f = false → primaryGroupingSize (format f) ≠ 0%N →
  secondaryGroupingSize (format f) = 0%N →
  Z.of_N (minGroupingDigits (format f)) + Z.of_N (primaryGroupingSize (format f)) ≤ len s →
  Z.of_N (primaryGroupingSize (format f)) < len s →
  ∀ fuel, groupMajorDigits fuel f s = OutOfFuel.
Proof.
  intros Hng Hp Hq Hlen Hlong fuel. rewrite groupMajorDigits_unfold by done.
  rewrite Hq. simpl. by rewrite groupLoop_stuck by lia.
Qed.

(** C1 (as amended): with grouping enabled, a digit string shorter than
    [minGroupingDigits + primaryGroupingSize] is returned unchanged;
    a longer one, when [secondaryGroupingSize] is not zero, is returned
    as its own digits in order, cut into groups that are joined by the
    grouping separator: the rightmost group has [primaryGroupingSize]
    digits, every group to its left has [secondaryGroupingSize] digits,
    except the leftmost, which has at least one and at most that
    many. *)
Theorem groupMajorDigits_groups fuel f s :
  NoGrouping f = false → primaryGroupingSize (format f) ≠ 0%N →
  (len s < Z.of_N (minGroupingDigits (format f)) + Z.of_N (primaryGroupingSize (format f)) →
   groupMajorDigits fuel f s = Ok s) ∧
  (Z.of_N (minGroupingDigits (format f)) + Z.of_N (primaryGroupingSize (format f)) ≤ len s →
   secondaryGroupingSize (format f) ≠ 0%N → (length s ≤ fuel)%nat →
   ∃ groups last,
     groupMajorDigits fuel f s = Ok (Join (groups ++ [last]) (groupingSeparator (format f))) ∧
     mjoin groups ++ last = s ∧
     len last = Z.of_N (primaryGroupingSize (format f)) ∧
     secondaryGroups (Z.of_N (secondaryGroupingSize (format f))) groups).
Proof.
  intros Hng Hp. split.
  - apply groupMajorDigits_short.
  - intros. by apply groupMajorDigits_grouped.
Qed.

(** C10 (as amended): [groupMajorDigits] returns for every digit string
    when [secondaryGroupingSize] is at least 1 whenever
    [primaryGroupingSize] is; with grouping enabled, a secondary size of
    zero, a primary size that is not zero and a string that is long
    enough to be grouped and longer than [primaryGroupingSize], no
    amount of fuel lets it return. *)
Theorem groupMajorDigits_termination f s :
  ((primaryGroupingSize (format f) ≠ 0%N → secondaryGroupingSize (format f) ≠ 0%N) →
   ∀ fuel, (length s ≤ fuel)%nat → ∃ out, groupMajorDigits fuel f s = Ok out) ∧
  (NoGrouping f = false → primaryGroupingSize (format f) ≠ 0%N →
   secondaryGroupingSize (format f) = 0%N →
   Z.of_N (minGroupingDigits (format f)) + Z.of_N (primaryGroupingSize (format f)) ≤ len s →
   Z.of_N (primaryGroupingSize (format f)) < len s →
   ∀ fuel, groupMajorDigits fuel f s = OutOfFuel).
Proof.
  split.
  - intros Hq fuel Hfuel. by apply groupMajorDigits_total.
  - apply groupMajorDigits_diverges.
Qed.

End GroupingTheorems.

Section Localize.
Implicit Types (s : gostring) (c : ascii) (r : list (gostring * gostring)).

Lemma find_ext {A} (P Q : A → bool) (l : list A) :
  (∀ x, x ∈ l → P x = Q x) → List.find P l = List.find Q l.
Proof.
  induction l as [|a l IH]; intros H; simpl; [done|].
  rewrite (H a) by left. destruct (Q a); [done|]. apply IH. intros x Hx. apply H. by right.
Qed.

(** A replacer whose old strings are single bytes works byte by byte. *)
Lemma replaceAux_bytes r s :
  Forall (λ p, length p.1 = 1%nat) r →
  replaceAux r 0 s =
  mjoin ((λ c, match matchAt r [c] with Some p => p.2 | None => [c] end) <$> s).
Proof.
  intros Hr. rewrite Forall_forall in Hr.
  induction s as [|c s IH]; [done|]. cbn [replaceAux fmap list_fmap mjoin].
  assert (Hm : matchAt r (c :: s) = matchAt r [c]).
  { apply find_ext. intros [old new] Hp. specialize (Hr _ Hp). simpl in *.
    destruct old as [|o [|? ?]]; simpl in *; try lia. by destruct (decide (o = c)). }
  rewrite Hm. destruct (matchAt r [c]) as [[old new]|] eqn:Hf.
  - destruct (find_Some_elem _ _ _ Hf) as [Hin _]. specialize (Hr _ Hin). simpl in Hr.
    rewrite Hr. simpl. by rewrite IH.
  - simpl. by rewrite IH.
Qed.

Lemma digitValue_cases c :
  digitValue c = None ∨ ∃ d, (d < 10)%nat ∧ c = ascii_of_nat (48 + d) ∧ digitValue c = Some d.
Proof.
  unfold digitValue. case_decide as H; [right|by left].
  exists (nat_of_ascii c - 48)%nat. split; [lia|]. split; [|done].
  replace (48 + (nat_of_ascii c - 48))%nat with (nat_of_ascii c) by lia.
  by rewrite ascii_nat_embedding.
Qed.

End Localize.

Section LocalizeDigits.
Context `{C : Collaborators}.
Implicit Types (f : Formatter) (s : gostring).

Lemma digitReplacer_bytes ns : Forall (λ p, length p.1 = 1%nat) (digitReplacer ns).
Proof.
  assert (H : bool_decide (Forall (λ p : gostring * gostring, length p.1 = 1%nat)
                             (digitReplacer ns)) = true)
    by (destruct ns; vm_compute; reflexivity).
  by apply bool_decide_eq_true in H.
Qed.

Lemma digitReplacer_digit ns d :
  ns ≠ numLatn → (d < 10)%nat →
  (match matchAt (digitReplacer ns) [ascii_of_nat (48 + d)] with
   | Some p => p.2
   | None => [ascii_of_nat (48 + d)]
   end) = default [] (glyphs ns !! d).
Proof.
  intros Hns Hd.
  do 10 (destruct d as [|d]; [destruct ns; try done; vm_compute; reflexivity|]). lia.
Qed.

Lemma digitReplacer_old ns :
  Forall (λ p, Forall (λ o, digitValue o ≠ None) p.1) (digitReplacer ns).
Proof.
  assert (H : bool_decide (Forall (λ p : gostring * gostring,
                Forall (λ o, digitValue o ≠ None) p.1) (digitReplacer ns)) = true)
    by (destruct ns; vm_compute; reflexivity).
  by apply bool_decide_eq_true in H.
Qed.

Lemma digitReplacer_other ns c :
  digitValue c = None → matchAt (digitReplacer ns) [c] = None.
Proof.
  intros Hc. apply find_None_iff. intros [old new] Hp. simpl.
  destruct (HasPrefix [c] old) eqn:Hpre; [|done]. exfalso.
  pose proof (digitReplacer_bytes ns) as Hb. pose proof (digitReplacer_old ns) as Ho.
  rewrite Forall_forall in Hb, Ho. specialize (Hb _ Hp). specialize (Ho _ Hp).
  simpl in *. destruct old as [|o [|? ?]]; simpl in *; try lia.
  destruct (decide (o = c)) as [->|]; [|done].
  by inversion Ho; subst.
Qed.

Lemma digitReplacer_byte ns c :
  ns ≠ numLatn →
  (match matchAt (digitReplacer ns) [c] with Some p => p.2 | None => [c] end)
  = localizedByte ns c.
Proof.
  intros Hns. unfold localizedByte.
  destruct (digitValue_cases c) as [Hc|(d & Hd & -> & Hc)]; rewrite Hc.
  - by rewrite digitReplacer_other.
  - by apply digitReplacer_digit.
Qed.

(** The glyphs are ten and hold no ASCII digit. *)
Lemma glyphs_table ns :
  ns ≠ numLatn →
  length (glyphs ns) = 10%nat ∧
  Forall (Forall (λ c, digitValue c = None)) (glyphs ns).
Proof.
  intros Hns.
  assert (H : bool_decide (length (glyphs ns) = 10%nat ∧
                Forall (Forall (λ c, digitValue c = None)) (glyphs ns)) = true)
    by (destruct ns; try done; vm_compute; reflexivity).
  by apply bool_decide_eq_true in H.
Qed.

Lemma localizedByte_no_digit ns c :
  ns ≠ numLatn → Forall (λ c, digitValue c = None) (localizedByte ns c).
Proof.
  intros Hns. unfold localizedByte. destruct (digitValue c) as [d|] eqn:Hc.
  - destruct (glyphs ns !! d) as [g|] eqn:Hg; simpl; [|constructor].
    destruct (glyphs_table ns Hns) as [_ H]. rewrite Forall_forall in H.
    apply H. by eapply list_elem_of_lookup_2.
  - by repeat constructor.
Qed.

Lemma localizeDigits_latn f s :
  numSystem (format f) = numLatn → localizeDigits f s = s.
Proof. intros Hns. unfold localizeDigits. by rewrite decide_True. Qed.

Lemma localizeDigits_other f s :
  numSystem (format f) ≠ numLatn →
  localizeDigits f s = mjoin (localizedByte (numSystem (format f)) <$> s).
Proof.
  intros Hns. unfold localizeDigits. rewrite decide_False by done.
  fold (digitReplacer (numSystem (format f))).
  unfold Replace. rewrite replaceAux_bytes by apply digitReplacer_bytes.
  f_equal. apply list_fmap_ext. intros _ c _. by apply digitReplacer_byte.
Qed.

Lemma localizeDigits_no_digit f s :
  numSystem (format f) ≠ numLatn →
  Forall (λ c, digitValue c = None) (localizeDigits f s).
Proof.
  intros Hns. rewrite localizeDigits_other by done.
  apply Forall_join, Forall_fmap, Forall_true. intros c. simpl.
  by apply localizedByte_no_digit.
Qed.

End LocalizeDigits.

Section Number.
Context `{C : Collaborators}.
Implicit Types (f : Formatter) (a : Amount) (s : gostring).

Lemma numberParts_index f a :
  let parts := Split (roundedNumber f a) (lit ".") in
  let parts := if decide (length parts = 1%nat) then parts ++ [[]] else parts in
  index parts 0 = Some (integerPart f a) ∧ index parts 1 = Some (fractionalPart f a).
Proof.
  unfold integerPart, fractionalPart. cbv zeta.
  pose proof (Split_length (roundedNumber f a) (lit ".") ltac:(done)) as Hlen.
  destruct (Split (roundedNumber f a) (lit ".")) as [|p0 [|p1 rest]];
    [simpl in Hlen; lia|done..].
Qed.

Lemma integerPart_length f a : (length (integerPart f a) ≤ length (roundedNumber f a))%nat.
Proof.
  unfold integerPart.
  destruct (Split (roundedNumber f a) (lit ".") !! 0%nat) as [p|] eqn:Hp; simpl; [|lia].
  apply (Split_piece _ (lit ".")); [done|]. by eapply list_elem_of_lookup_2.
Qed.

Lemma formatNumber_unfold fuel f a :
  formatNumber fuel f a =
  (majorDigits ←r groupMajorDigits fuel f (integerPart f a);
   Ok (localizeDigits f
         (majorDigits ++
          (if decide (minorDigitsOf f a = []) then []
           else decimalSeparator (format f) ++ minorDigitsOf f a)))).
Proof.
  unfold formatNumber.
  fold (effective (MinDigits f) a) (effective (MaxDigits f) a).
  fold (effectiveMin f a) (effectiveMax f a). fold (roundedNumber f a).
  destruct (numberParts_index f a) as [-> ->]. cbn [of_option rbind].
  destruct (groupMajorDigits fuel f (integerPart f a)) as [major| |]; [|done..].
  cbn [rbind]. fold (minorDigitsOf f a).
  destruct (decide (minorDigitsOf f a = [])) as [Hm|Hm].
  - rewrite decide_False by (by intros ?). by rewrite app_nil_r.
  - rewrite decide_True by done. by rewrite <- app_assoc.
Qed.

Lemma formatNumber_no_panic fuel f a : formatNumber fuel f a ≠ Panic.
Proof.
  rewrite formatNumber_unfold.
  pose proof (groupMajorDigits_no_panic fuel f (integerPart f a)).
  by destruct (groupMajorDigits fuel f (integerPart f a)).
Qed.

Lemma formatNumber_total fuel f a :
  (primaryGroupingSize (format f) ≠ 0%N → secondaryGroupingSize (format f) ≠ 0%N) →
  (length (roundedNumber f a) ≤ fuel)%nat →
  ∃ num, formatNumber fuel f a = Ok num.
Proof.
  intros Hq Hfuel. rewrite formatNumber_unfold.
  destruct (groupMajorDigits_total fuel f (integerPart f a) Hq) as [major ->]; [|eauto].
  pose proof (integerPart_length f a). lia.
Qed.

Lemma Repeat_zero n : Repeat (lit "0") n = replicate (Z.to_nat n) "0"%char.
Proof.
  unfold Repeat. change (lit "0") with ["0"%char].
  induction (Z.to_nat n) as [|k IH]; simpl; [done|]. by rewrite IH.
Qed.

(** C2: the integer part given, [formatNumber] returns the localized
    concatenation of the grouped integer part and, exactly when the
    fractional digits it settled on are not empty, the decimal separator
    and these digits.  When the effective minimum is below the effective
    maximum these digits are the rounded fractional part without its
    trailing zeros, followed by as many zeros as its length is short of the
    minimum; otherwise they are the rounded fractional part as it is.  So
    with a minimum of zero, a fractional part of zeros only (and, as
    rounding leaves it, of no more digits than the maximum) leaves no
    separator. *)
Theorem formatNumber_fraction fuel f a major :
  groupMajorDigits fuel f (integerPart f a) = Ok major →
  ∃ minor,
    formatNumber fuel f a =
      Ok (localizeDigits f
            (major ++ if decide (minor = []) then []
                      else decimalSeparator (format f) ++ minor)) ∧
    ((effectiveMin f a < effectiveMax f a)%N →
     ∃ kept zeros,
       fractionalPart f a = kept ++ replicate zeros "0"%char ∧
       (∀ c, last kept = Some c → c ≠ "0"%char) ∧
       minor = kept ++ replicate (Z.to_nat (Z.of_N (effectiveMin f a) - len kept)) "0"%char) ∧
    (¬ (effectiveMin f a < effectiveMax f a)%N → minor = fractionalPart f a) ∧
    (effectiveMin f a = 0%N →
     (length (fractionalPart f a) ≤ N.to_nat (effectiveMax f a))%nat →
     Forall (λ c, c = "0"%char) (fractionalPart f a) →
     formatNumber fuel f a = Ok (localizeDigits f major)).
Proof.
  intros Hmajor. exists (minorDigitsOf f a).
  rewrite formatNumber_unfold, Hmajor. cbn [rbind]. split; [done|].
  assert (Hlt : (effectiveMin f a < effectiveMax f a)%N →
     ∃ kept zeros,
       fractionalPart f a = kept ++ replicate zeros "0"%char ∧
       (∀ c, last kept = Some c → c ≠ "0"%char) ∧
       minorDigitsOf f a
       = kept ++ replicate (Z.to_nat (Z.of_N (effectiveMin f a) - len kept)) "0"%char).
  { intros Hlt. unfold minorDigitsOf. rewrite decide_True by done. cbv zeta.
    destruct (TrimRight_spec (fractionalPart f a) (lit "0")) as (rest & Hs & Hrest & Hlast).
    exists (TrimRight (fractionalPart f a) (lit "0")), (length rest).
    split; [|split].
    - rewrite Hs at 1. f_equal. clear Hs.
      induction Hrest as [|c rest Hc _ IH]; [done|]. simpl. f_equal; [|done].
      by apply list_elem_of_singleton in Hc.
    - intros c Hc ->. apply (Hlast _ Hc). by apply list_elem_of_singleton.
    - case_decide as Hshort.
      + by rewrite Repeat_zero.
      + replace (Z.to_nat _) with O by lia. by rewrite app_nil_r. }
  split; [done|]. split.
  - intros Hge. unfold minorDigitsOf. by rewrite decide_False.
  - intros Hmin Hmax Hzeros.
    destruct (decide (effectiveMin f a < effectiveMax f a)%N) as [Hlt'|Hge].
    2:{ assert (Hm : minorDigitsOf f a = []).
        { unfold minorDigitsOf. case_decide; [done|]. apply nil_length_inv. lia. }
        rewrite Hm. simpl. by rewrite app_nil_r. }
    destruct (Hlt Hlt') as (kept & zeros & Hfrac & Hlast & ->).
    assert (kept = []) as ->.
    { destruct (last kept) as [c|] eqn:Hc; [|by apply last_None].
      exfalso. apply (Hlast c eq_refl). rewrite Forall_forall in Hzeros. apply Hzeros.
      rewrite Hfrac. apply elem_of_app. left. by eapply last_Some_elem_of. }
    rewrite Hmin. simpl. by rewrite app_nil_r.
Qed.

(** C6: [localizeDigits] is the identity for the Western Arabic
    numbering system; for any other it replaces each ASCII digit by the
    glyph of its value in the ten-glyph table of the numbering system and
    keeps every other byte, so that its result, and with it every number
    that [formatNumber] returns, holds no ASCII digit. *)
Theorem localizeDigits_spec f s :
  (numSystem (format f) = numLatn → localizeDigits f s = s) ∧
  (numSystem (format f) ≠ numLatn →
   length (glyphs (numSystem (format f))) = 10%nat ∧
   localizeDigits f s = mjoin (localizedByte (numSystem (format f)) <$> s) ∧
   Forall (λ c, digitValue c = None) (localizeDigits f s) ∧
   ∀ fuel a num, formatNumber fuel f a = Ok num → Forall (λ c, digitValue c = None) num).
Proof.
  split; [apply localizeDigits_latn|]. intros Hns.
  split; [by apply glyphs_table|]. split; [by apply localizeDigits_other|].
  split; [by apply localizeDigits_no_digit|].
  intros fuel a num. rewrite formatNumber_unfold.
  destruct (groupMajorDigits fuel f (integerPart f a)); [|done..].
  intros [= <-]. by apply localizeDigits_no_digit.
Qed.

End Number.

Section Render.
Context `{C : Collaborators}.
Implicit Types (f : Formatter) (a b : Amount) (s : gostring) (h : heap).

Lemma subPatterns_length f : (1 ≤ length (subPatterns f))%nat.
Proof. by apply Split_length. Qed.

Lemma getPattern_spec f a :
  getPattern f a = Ok (if IsNegative a then negativePattern f else positivePattern f).
Proof.
  unfold getPattern, negativePattern, positivePattern. fold (subPatterns f).
  pose proof (subPatterns_length f) as Hlen.
  destruct (subPatterns f) as [|p0 [|p1 rest]]; [simpl in Hlen; lia|..];
    by destruct (IsNegative a).
Qed.

Lemma negativePattern_spec f :
  (length (subPatterns f) = 1%nat → negativePattern f = lit "-" ++ positivePattern f) ∧
  (∀ p, subPatterns f !! 1%nat = Some p → negativePattern f = p).
Proof.
  unfold negativePattern. split.
  - intros Hlen. by destruct (subPatterns f) as [|p0 [|p1 rest]].
  - by intros p ->.
Qed.

Lemma formatCurrency_spec f code h :
  formatCurrency f code h = Ok (currencyOf f code (deref h (SymbolMap f)), h).
Proof.
  unfold formatCurrency, currencyOf, mbind, mapLookup, mret.
  repeat case_decide; try done. by destruct (deref h (SymbolMap f) !! code).
Qed.

Lemma Format_unfold fuel f a h :
  Format fuel f a h =
  match formatNumber fuel f (magnitude a) with
  | Ok num =>
      Ok (substitute f num
            (currencyOf f (CurrencyCode (magnitude a)) (deref h (SymbolMap f)))
            (if IsNegative a then negativePattern f else positivePattern f), h)
  | Panic => Panic
  | OutOfFuel => OutOfFuel
  end.
Proof.
  unfold Format, mbind, lift. rewrite getPattern_spec. fold (magnitude a).
  destruct (formatNumber fuel f (magnitude a)) as [num| |]; [|done..].
  by rewrite formatCurrency_spec.
Qed.

(** C5: in symbol mode [formatCurrency] returns the entry of the
    [SymbolMap] for the code when there is one, and otherwise the symbol
    that [GetSymbol] gives for the code and the formatter's locale, which
    is the locale [NewFormatter] was called with; in code mode it returns
    the code; for [DisplayNone] and every other value it returns the
    empty string.  It never fails and leaves the heap as it is. *)
Theorem formatCurrency_modes f code h :
  (CurrencyDisplay f = DisplaySymbol →
   (∀ symbol, deref h (SymbolMap f) !! code = Some symbol →
              formatCurrency f code h = Ok (symbol, h)) ∧
   (deref h (SymbolMap f) !! code = None →
    formatCurrency f code h = Ok ((GetSymbol code (locale f)).1, h))) ∧
  (CurrencyDisplay f = DisplayCode → formatCurrency f code h = Ok (code, h)) ∧
  (CurrencyDisplay f ≠ DisplaySymbol → CurrencyDisplay f ≠ DisplayCode →
   formatCurrency f code h = Ok ([], h)) ∧
  (∀ fuel l h0 h1, NewFormatter fuel l h0 = Ok (f, h1) → locale f = l).
Proof.
  rewrite formatCurrency_spec. unfold currencyOf.
  split; [|split; [|split]].
  - intros Hd. rewrite decide_True by done. split; [by intros symbol ->|by intros ->].
  - intros Hd. rewrite decide_False by (rewrite Hd; done). by rewrite decide_True.
  - intros H1 H2. by rewrite !decide_False.
  - intros fuel l h0 h1. unfold NewFormatter, mbind, lift, makeMap, mret.
    destruct (resolveFormat fuel l); [|done..]. by intros [= <- _].
Qed.

(** C7: whenever the formatted currency is the empty string, as it is
    with [DisplayNone], a string that [Format] returns neither starts nor
    ends with a white space code point; and [Format] does return one,
    given a secondary group size that is not zero and fuel for the digits
    of the amount. *)
Theorem Format_no_dangling_space fuel f a h :
  formatCurrency f (CurrencyCode (magnitude a)) h = Ok ([], h) →
  (∀ out h', Format fuel f a h = Ok (out, h') →
             noLeadingSpace out ∧ noTrailingSpace out) ∧
  ((primaryGroupingSize (format f) ≠ 0%N → secondaryGroupingSize (format f) ≠ 0%N) →
   (length (roundedNumber f (magnitude a)) ≤ fuel)%nat →
   ∃ out, Format fuel f a h = Ok (out, h))  ∧
  (CurrencyDisplay f = DisplayNone → ∀ code, formatCurrency f code h = Ok ([], h)).
Proof.
  intros Hcur. rewrite formatCurrency_spec in Hcur. injection Hcur as Hcur.
  rewrite Format_unfold, Hcur. split; [|split].
  - intros out h'. destruct (formatNumber fuel f (magnitude a)) as [num| |]; [|done..].
    intros [= <- _]. unfold substitute. rewrite decide_True by done.
    apply TrimSpace_trimmed.
  - intros Hq Hfuel.
    destruct (formatNumber_total fuel f (magnitude a) Hq Hfuel) as [num ->]. eauto.
  - intros Hd code. rewrite formatCurrency_spec. unfold currencyOf.
    by rewrite !decide_False by (rewrite Hd; done).
Qed.

(** C8: [Format] is a function of the amount, the formatter and the
    contents of the formatter's [SymbolMap]: in every heap that holds
    these contents it returns the same string, or fails in the same way,
    and the heap it returns is the heap it was given.  (The receiver of
    [Format] is a copy of the [Formatter]: the heap is all it shares
    with its caller.) *)
Theorem Format_pure (fuel : nat) f a (m : gomap) :
  ∃ r : result gostring,
    ∀ h, deref h (SymbolMap f) = m →
         Format fuel f a h = (out ←r r; Ok (out, h)).
Proof.
  exists (num ←r formatNumber fuel f (magnitude a);
          Ok (substitute f num (currencyOf f (CurrencyCode (magnitude a)) m)
                (if IsNegative a then negativePattern f else positivePattern f))).
  intros h <-. rewrite Format_unfold.
  by destruct (formatNumber fuel f (magnitude a)).
Qed.

(** C9: no index and no slice of a render is out of range:
    [getPattern] returns a sub-pattern, the second one only when the
    split gave more than one; [groupMajorDigits], [formatNumber] and
    [Format] never panic. *)
Theorem render_in_bounds fuel f a h :
  getPattern f a = Ok (if IsNegative a then negativePattern f else positivePattern f) ∧
  (∀ s, groupMajorDigits fuel f s ≠ Panic) ∧
  formatNumber fuel f a ≠ Panic ∧
  Format fuel f a h ≠ Panic.
Proof.
  split; [apply getPattern_spec|]. split; [intros s; apply groupMajorDigits_no_panic|].
  split; [apply formatNumber_no_panic|].
  rewrite Format_unfold. pose proof (formatNumber_no_panic fuel f (magnitude a)).
  by destruct (formatNumber fuel f (magnitude a)).
Qed.

End Render.

Section SplitLemmas.
Implicit Types (s cur x : gostring) (c : ascii).



End SplitLemmas.

Section ReplaceLemmas.
Implicit Types (s pre rest : gostring) (r : list (gostring * gostring)).






End ReplaceLemmas.

Section Negated.
Context `{C : Collaborators}.
Implicit Types (f : Formatter) (a b : Amount) (s p pre post cur num : gostring) (h : heap).









End Negated.

Section Resolution.
Context `{C : Collaborators}.
Implicit Types (l : Locale) (fmt : currencyFormat) (h : heap).

Lemma resolveFormat_unfold fuel l :
  resolveFormat (S fuel) l =
  match currencyFormats !! LocaleString (normalize l) with
  | Some fmt => Ok fmt
  | None => if IsEmpty (GetParent (normalize l)) then Ok zeroFormat
            else resolveFormat fuel (GetParent (normalize l))
  end.
Proof. done. Qed.

Lemma normalize_idemp l : normalize (normalize l) = normalize l.
Proof.
  unfold normalize. destruct (decide (l = enUSLocale)) as [->|Hl].
  - by destruct (decide (enLocale = enUSLocale)).
  - by rewrite decide_False.
Qed.

Lemma resolveFormat_normalize fuel l :
  resolveFormat fuel (normalize l) = resolveFormat fuel l.
Proof. destruct fuel; [done|]. by rewrite !resolveFormat_unfold, normalize_idemp. Qed.

(** The chain is finite when some rank decreases along it. *)
Lemma resolveFormat_total (rank : Locale → nat) :
  (∀ l, IsEmpty (GetParent (normalize l)) = false →
        (rank (GetParent (normalize l)) < rank l)%nat) →
  ∀ fuel l, (rank l < fuel)%nat →
  ∃ fmt, resolveFormat fuel l = Ok fmt ∧ resolves l fmt.
Proof.
  intros Hrank. induction fuel as [|fuel IH]; intros l Hl; [lia|].
  rewrite resolveFormat_unfold.
  destruct (currencyFormats !! LocaleString (normalize l)) as [fmt|] eqn:Hfmt.
  { exists fmt. split; [done|]. by apply resolves_found. }
  destruct (IsEmpty (GetParent (normalize l))) eqn:Hempty.
  { exists zeroFormat. split; [done|]. by apply resolves_empty. }
  destruct (IH (GetParent (normalize l))) as (fmt & Hrun & Hres).
  { specialize (Hrank l Hempty). lia. }
  exists fmt. split; [done|]. by apply resolves_parent.
Qed.

(** C4: when the parent chain of every locale is finite (some rank
    decreases along it), [NewFormatter] returns a formatter for every
    locale, given fuel beyond the rank of the locale: its rule set is the
    one the chain of the locale leads to, the zero value when the chain
    reaches the empty locale without a match; its locale is the one
    asked for, its other fields hold the defaults, and its [SymbolMap]
    is a new empty map.  The rule set for [en-US] is the one for [en]. *)
Theorem NewFormatter_total (rank : Locale → nat) fuel l h :
  (∀ l, IsEmpty (GetParent (normalize l)) = false →
        (rank (GetParent (normalize l)) < rank l)%nat) →
  (rank l < fuel)%nat →
  (∃ fmt,
     NewFormatter fuel l h =
       Ok ({| locale := l; format := fmt; NoGrouping := false;
              MinDigits := DefaultDigits; MaxDigits := 6;
              CurrencyDisplay := DisplaySymbol;
              SymbolMap := Some (fresh (dom h)) |},
           <[fresh (dom h) := ∅]> h) ∧
     resolves l fmt ∧ h !! fresh (dom h) = None) ∧
  resolveFormat fuel enUSLocale = resolveFormat fuel enLocale.
Proof.
  intros Hrank Hfuel. split.
  - destruct (resolveFormat_total rank Hrank fuel l Hfuel) as (fmt & Hrun & Hres).
    exists fmt. unfold NewFormatter, mbind, lift, makeMap, mret. rewrite Hrun.
    split; [done|]. split; [done|]. apply not_elem_of_dom, is_fresh.
  - rewrite <- (resolveFormat_normalize fuel enUSLocale). unfold normalize.
    by rewrite decide_True.
Qed.

End Resolution.

(** * More properties of the formatter *)

Section MoreGrouping.
Context `{C : Collaborators}.
Implicit Types (f : Formatter) (s g : gostring) (groups gs : list gostring).

(** Whenever the loop ends, the groups it has added are the first [i]
    bytes, cut from right to left. *)
Lemma groupLoop_concat s q : 0 ≤ q →
  ∀ fuel i groups r, 0 ≤ i → i ≤ len s →
  groupLoop fuel s q i groups = Ok r →
  ∃ gs, r = groups ++ gs ∧ mjoin (reverse gs) = take (Z.to_nat i) s.
Proof.
  intros Hq. induction fuel as [|fuel IH]; intros i groups r Hi0 Hi; cbn [groupLoop];
    case_decide as Hpos; try done.
  - intros [= <-]. exists []. rewrite app_nil_r. by replace i with 0 by lia.
  - destruct (decide (i - q < 0)) as [Hneg|Hnneg].
    + rewrite slice_Some by lia. cbn [of_option rbind].
      rewrite groupLoop_done by lia. intros [= <-].
      exists [take (Z.to_nat (i - 0)) (drop (Z.to_nat 0) s)]. split; [done|].
      rewrite reverse_singleton. simpl. rewrite app_nil_r, Z.sub_0_r. done.
    + rewrite slice_Some by lia. cbn [of_option rbind].
      intros Hrun. apply IH in Hrun as (gs & -> & Hcat); [|lia..].
      eexists (_ :: gs). rewrite <- app_assoc. split; [done|].
      rewrite reverse_cons, join_app, Hcat. simpl. rewrite app_nil_r.
      rewrite take_take_drop. f_equal. lia.
  - intros [= <-]. exists []. rewrite app_nil_r. by replace i with 0 by lia.
Qed.

(** Whatever the rule set, a result of [groupMajorDigits] is the input
    cut into pieces that are joined by the grouping separator. *)
Lemma groupMajorDigits_pieces fuel f s out :
  groupMajorDigits fuel f s = Ok out →
  ∃ groups, out = Join groups (groupingSeparator (format f)) ∧ mjoin groups = s.
Proof.
  destruct (NoGrouping f) eqn:Hng.
  { rewrite groupMajorDigits_off by auto. intros [= <-]. exists [s]. simpl.
    by rewrite app_nil_r. }
  destruct (decide (primaryGroupingSize (format f) = 0%N)) as [Hp|Hp].
  { rewrite groupMajorDigits_off by auto. intros [= <-]. exists [s]. simpl.
    by rewrite app_nil_r. }
  destruct (decide (len s < Z.of_N (minGroupingDigits (format f))
                            + Z.of_N (primaryGroupingSize (format f)))) as [Hs|Hs].
  { rewrite groupMajorDigits_short by done. intros [= <-]. exists [s]. simpl.
    by rewrite app_nil_r. }
  rewrite groupMajorDigits_unfold by (done || lia).
  destruct (groupLoop _ _ _ _ _) as [r| |] eqn:Hrun; [|done..]. cbn [rbind].
  intros [= <-]. apply groupLoop_concat in Hrun as (gs & -> & Hcat); [|lia..].
  exists (reverse ([drop (Z.to_nat (len s - Z.of_N (primaryGroupingSize (format f)))) s] ++ gs)).
  split; [done|]. rewrite reverse_app, reverse_singleton, join_app, Hcat. simpl.
  by rewrite app_nil_r, take_drop.
Qed.

Lemma filter_Join (P : ascii → Prop) `{∀ c, Decision (P c)} groups sep :
  filter P sep = [] → filter P (Join groups sep) = filter P (mjoin groups).
Proof.
  intros Hsep. induction groups as [|g [|g' rest] IH]; [done|..].
  - simpl. by rewrite app_nil_r.
  - change (Join (g :: g' :: rest) sep) with (g ++ sep ++ Join (g' :: rest) sep).
    change (mjoin (g :: g' :: rest)) with (g ++ mjoin (g' :: rest)).
    by rewrite !filter_app, Hsep, IH.
Qed.

Lemma length_Join groups g sep :
  length (Join (groups ++ [g]) sep)
  = (length (mjoin groups) + length g + length groups * length sep)%nat.
Proof.
  induction groups as [|g0 rest IH]; [simpl; lia|].
  change ((g0 :: rest) ++ [g]) with (g0 :: (rest ++ [g])).
  destruct (rest ++ [g]) as [|g1 rest'] eqn:Hr; [by destruct rest|].
  change (Join (g0 :: g1 :: rest') sep) with (g0 ++ sep ++ Join (g1 :: rest') sep).
  rewrite !length_app, IH. simpl. rewrite length_app. lia.
Qed.

Lemma secondaryGroups_count q groups :
  0 < q → secondaryGroups q groups →
  Z.of_nat (length groups) = (Z.of_nat (length (mjoin groups)) + q - 1) / q.
Proof.
  intros Hq [Hfirst Hrest]. destruct groups as [|g0 rest].
  { simpl. symmetry. apply Z.div_small. lia. }
  destruct (Hfirst g0 eq_refl) as [Hg0 Hg0'].
  assert (Hsum : Z.of_nat (length (mjoin rest)) = Z.of_nat (length rest) * q).
  { clear Hfirst. induction rest as [|g1 rest IH]; [simpl; lia|].
    simpl. rewrite length_app. rewrite Nat2Z.inj_add, IH.
    - specialize (Hrest O g1 eq_refl). unfold len in Hrest. lia.
    - intros k g Hk. apply (Hrest (S k) g Hk). }
  simpl. rewrite length_app, Nat2Z.inj_add, Hsum. unfold len in *.
  apply Z.div_unique with (r := Z.of_nat (length g0) - 1); lia.
Qed.

End MoreGrouping.

Section MoreTheorems.
Context `{C : Collaborators}.
Implicit Types (f : Formatter) (a b : Amount) (s g : gostring) (h : heap).

Lemma filter_all {A} (P : A → Prop) `{∀ x, Decision (P x)} (l : list A) :
  Forall P l → filter P l = l.
Proof.
  induction 1 as [|x l Hx _ IH]; [done|]. rewrite filter_cons_True by done. by rewrite IH.
Qed.

Lemma filter_none {A} (P : A → Prop) `{∀ x, Decision (P x)} (l : list A) :
  Forall (λ x, ¬ P x) l → filter P l = [].
Proof.
  induction 1 as [|x l Hx _ IH]; [done|]. by rewrite filter_cons_False.
Qed.

(** X5: grouping keeps the digits: when no byte of the input is a byte of
    the grouping separator, removing the bytes of the separator from a
    result of [groupMajorDigits] gives the input back. *)
Theorem groupMajorDigits_keeps_digits fuel f s out :
  groupMajorDigits fuel f s = Ok out →
  Forall (λ c, c ∉ groupingSeparator (format f)) s →
  filter (λ c, c ∉ groupingSeparator (format f)) out = s.
Proof.
  intros (groups & -> & <-)%groupMajorDigits_pieces Hs.
  rewrite filter_Join.
  - by apply filter_all.
  - apply filter_none, Forall_forall. intros c Hc Hn. by apply Hn.
Qed.

(** X6: the length of a grouped string: with grouping enabled, a
    secondary size that is not zero and a string of [n] digits that is
    long enough to be grouped, the result has the [n] digits and one
    separator for each secondary group, of which there are
    [(n - primary) / secondary], rounded up. *)
Theorem groupMajorDigits_length fuel f s :
  NoGrouping f = false → primaryGroupingSize (format f) ≠ 0%N →
  secondaryGroupingSize (format f) ≠ 0%N →
  Z.of_N (minGroupingDigits (format f)) + Z.of_N (primaryGroupingSize (format f)) ≤ len s →
  (length s ≤ fuel)%nat →
  ∃ out,
    groupMajorDigits fuel f s = Ok out ∧
    len out = len s +
      (len s - Z.of_N (primaryGroupingSize (format f))
       + Z.of_N (secondaryGroupingSize (format f)) - 1)
      / Z.of_N (secondaryGroupingSize (format f))
      * len (groupingSeparator (format f)).
Proof.
  intros Hng Hp Hq Hlen Hfuel.
  destruct (groupMajorDigits_grouped fuel f s Hng Hp Hq Hlen Hfuel)
    as (groups & last & -> & Hcat & Hlast & Hshape).
  eexists. split; [done|].
  apply secondaryGroups_count in Hshape; [|lia].
  assert (Hsum : Z.of_nat (length (mjoin groups))
                 = len s - Z.of_N (primaryGroupingSize (format f))).
  { rewrite <- Hcat. unfold len in *. rewrite length_app. lia. }
  rewrite Hsum in Hshape. rewrite <- Hshape.
  unfold len. rewrite length_Join. rewrite <- Hcat, length_app. lia.
Qed.

End MoreTheorems.

Section MoreRender.
Context `{C : Collaborators}.
Implicit Types (f : Formatter) (a b : Amount) (s g : gostring) (h : heap).

(** X4: [Format] returns a string and leaves the heap as it is, for
    every amount, whenever the secondary group size of the rule set is
    not zero (or its primary size is), given fuel for the digits of the
    amount. *)
Theorem Format_total fuel f a h :
  (primaryGroupingSize (format f) ≠ 0%N → secondaryGroupingSize (format f) ≠ 0%N) →
  (length (roundedNumber f (magnitude a)) ≤ fuel)%nat →
  ∃ out, Format fuel f a h = Ok (out, h).
Proof.
  intros Hq Hfuel. rewrite Format_unfold.
  destruct (formatNumber_total fuel f (magnitude a) Hq Hfuel) as [num ->]. eauto.
Qed.

(** X12: with grouping enabled, a primary group size that is not zero
    and a secondary group size of zero, [Format] never returns for an
    amount whose rounded integer part is long enough to be grouped and
    longer than the primary size. *)
Theorem Format_hangs f a h :
  NoGrouping f = false → primaryGroupingSize (format f) ≠ 0%N →
  secondaryGroupingSize (format f) = 0%N →
  Z.of_N (minGroupingDigits (format f)) + Z.of_N (primaryGroupingSize (format f))
    ≤ len (integerPart f (magnitude a)) →
  Z.of_N (primaryGroupingSize (format f)) < len (integerPart f (magnitude a)) →
  ∀ fuel, Format fuel f a h = OutOfFuel.
Proof.
  intros Hng Hp Hq Hlen Hlong fuel. rewrite Format_unfold, formatNumber_unfold.
  by rewrite groupMajorDigits_diverges.
Qed.

(** X3: a formatter with the zero value for a rule set, as
    [NewFormatter] leaves it for a locale whose parent chain has no rule
    set, renders every amount, negative or not, as the empty string. *)
Theorem Format_zero_format fuel f a h :
  format f = zeroFormat → Format fuel f a h = Ok ([], h).
Proof.
  intros Hfmt. rewrite Format_unfold, formatNumber_unfold.
  rewrite groupMajorDigits_off by (right; by rewrite Hfmt). cbn [rbind].
  assert (Hpos : positivePattern f = [])
    by (unfold positivePattern, subPatterns; by rewrite Hfmt).
  assert (Hneg : negativePattern f = lit "-")
    by (unfold negativePattern, positivePattern, subPatterns; by rewrite Hfmt).
  rewrite Hpos, Hneg. unfold substitute. rewrite Hfmt.
  generalize (currencyOf f (CurrencyCode (magnitude a)) (deref h (SymbolMap f))).
  generalize (localizeDigits f
    (integerPart f (magnitude a) ++
     (if decide (minorDigitsOf f (magnitude a) = []) then []
      else decimalSeparator zeroFormat ++ minorDigitsOf f (magnitude a)))).
  intros num cur. f_equal. f_equal.
  destruct (IsNegative a); case_decide; reflexivity.
Qed.

End MoreRender.

Section MoreHeap.
Context `{C : Collaborators}.
Implicit Types (f : Formatter) (a b : Amount) (s g code : gostring) (h : heap).

Lemma NewFormatter_inv fuel l h f h' :
  NewFormatter fuel l h = Ok (f, h') →
  locale f = l ∧ CurrencyDisplay f = DisplaySymbol ∧
  SymbolMap f = Some (fresh (dom h)) ∧ h' = <[fresh (dom h) := ∅]> h ∧
  h !! fresh (dom h) = None.
Proof.
  unfold NewFormatter, mbind, lift, makeMap, mret.
  destruct (resolveFormat fuel l); [|done..]. intros [= <- <-]. simpl.
  repeat split; try done. apply not_elem_of_dom, is_fresh.
Qed.

(** X1: the formatter that [NewFormatter] returns reports, through
    [Locale], the locale it was asked for, whatever locale of the parent
    chain gave the rule set, and in a heap where every map that was there
    is as it was; without an override it shows, for every currency code,
    the symbol of the currency metadata for that locale. *)
Theorem NewFormatter_Locale fuel l h f h' :
  NewFormatter fuel l h = Ok (f, h') →
  Formatter_Locale f = l ∧
  (∀ m, m ≠ SymbolMap f → deref h' m = deref h m) ∧
  ∀ code, formatCurrency f code h' = Ok ((GetSymbol code l).1, h').
Proof.
  intros (Hl & Hd & Hm & -> & Hfresh)%NewFormatter_inv. split; [done|]. split.
  - intros [ℓ|] Hne; [|done]. simpl. rewrite lookup_insert_ne; [done|].
    intros <-. by rewrite Hm in Hne.
  - intros code. rewrite formatCurrency_spec. unfold currencyOf.
    rewrite decide_True by done. rewrite Hm. simpl.
    rewrite lookup_insert_eq. simpl. by rewrite lookup_empty, Hl.
Qed.

(** X2: two formatters made one after the other have [SymbolMap]s of
    their own: the maps are different, both are empty, and an override
    stored in the first changes neither the second map nor what the
    second formatter shows for any currency. *)
Theorem NewFormatter_own_map fuel1 fuel2 l1 l2 h f1 h1 f2 h2 code symbol h3 :
  NewFormatter fuel1 l1 h = Ok (f1, h1) →
  NewFormatter fuel2 l2 h1 = Ok (f2, h2) →
  mapStore (SymbolMap f1) code symbol h2 = Ok (tt, h3) →
  SymbolMap f1 ≠ SymbolMap f2 ∧
  deref h2 (SymbolMap f1) = ∅ ∧ deref h2 (SymbolMap f2) = ∅ ∧
  deref h3 (SymbolMap f2) = ∅ ∧
  ∀ code', formatCurrency f2 code' h3 = Ok ((GetSymbol code' l2).1, h3).
Proof.
  intros (_ & _ & Hm1 & -> & Hf1)%NewFormatter_inv
         (Hl2 & Hd2 & Hm2 & -> & Hf2)%NewFormatter_inv.
  intros Hstore.
  set (ℓ1 := fresh (dom h)) in *. set (ℓ2 := fresh (dom (<[ℓ1:=∅]> h))) in *.
  assert (Hne : ℓ1 ≠ ℓ2) by (intros Heq; rewrite <- Heq, lookup_insert_eq in Hf2; done).
  assert (H3 : deref h3 (SymbolMap f2) = ∅).
  { unfold mapStore in Hstore. rewrite Hm1 in Hstore. injection Hstore as <-.
    rewrite Hm2. simpl. rewrite lookup_insert_ne by done. by rewrite lookup_insert_eq. }
  rewrite Hm1, Hm2. split; [by intros [= ?]|]. split.
  { simpl. rewrite lookup_insert_ne by done. by rewrite lookup_insert_eq. }
  split; [simpl; by rewrite lookup_insert_eq|]. rewrite <- Hm2. split; [exact H3|].
  intros code'. rewrite formatCurrency_spec. unfold currencyOf.
  rewrite decide_True by done. by rewrite H3, lookup_empty, Hl2.
Qed.

(** X10: an override is what the formatter shows: after
    [SymbolMap[code] = symbol], in symbol mode, [formatCurrency] returns
    [symbol] for [code], and for every other code what it returned
    before. *)
Theorem formatCurrency_override f code symbol h h' :
  mapStore (SymbolMap f) code symbol h = Ok (tt, h') →
  CurrencyDisplay f = DisplaySymbol →
  formatCurrency f code h' = Ok (symbol, h') ∧
  ∀ code' out, code' ≠ code →
    formatCurrency f code' h = Ok (out, h) → formatCurrency f code' h' = Ok (out, h').
Proof.
  unfold mapStore. destruct (SymbolMap f) as [ℓ|] eqn:Hm; [|done].
  intros [= <-] Hd. split.
  - rewrite formatCurrency_spec. unfold currencyOf. rewrite decide_True by done.
    rewrite Hm. simpl. rewrite lookup_insert_eq. simpl.
    by rewrite (lookup_insert_eq (M := gmap (list ascii))).
  - intros code' out Hne. rewrite !formatCurrency_spec. unfold currencyOf.
    rewrite !decide_True by done. rewrite Hm. simpl. rewrite lookup_insert_eq. simpl.
    rewrite (lookup_insert_ne (M := gmap (list ascii))) by done. by intros [= <-].
Qed.

(** X11: of the heap, [Format] reads one entry at most: the entry of the
    amount's currency code in the [SymbolMap], and this in symbol mode
    only.  In two heaps that agree on it, or in any two heaps in another
    mode, it returns the same string. *)
Theorem Format_reads_one_entry fuel f a h1 h2 :
  CurrencyDisplay f ≠ DisplaySymbol ∨
  deref h1 (SymbolMap f) !! CurrencyCode (magnitude a)
  = deref h2 (SymbolMap f) !! CurrencyCode (magnitude a) →
  Format fuel f a h2 =
  match Format fuel f a h1 with
  | Ok (out, _) => Ok (out, h2)
  | Panic => Panic
  | OutOfFuel => OutOfFuel
  end.
Proof.
  intros Hsame. rewrite !Format_unfold.
  destruct (formatNumber fuel f (magnitude a)) as [num| |]; [|done..].
  assert (Hcur : currencyOf f (CurrencyCode (magnitude a)) (deref h2 (SymbolMap f))
                 = currencyOf f (CurrencyCode (magnitude a)) (deref h1 (SymbolMap f))).
  { unfold currencyOf. destruct Hsame as [Hd|Heq].
    - by rewrite !(decide_False (P := CurrencyDisplay f = DisplaySymbol)) by done.
    - by rewrite Heq. }
  by rewrite Hcur.
Qed.

End MoreHeap.

Section MoreNumber.
Context `{C : Collaborators}.
Implicit Types (f : Formatter) (a b : Amount) (s g code : gostring) (h : heap).

(** X7: the number of fractional digits that [formatNumber] writes,
    for an amount whose rounded fractional part has no more digits than
    the effective maximum: never more than the maximum; with a minimum
    below the maximum, never fewer than the minimum, and no zero at the
    end beyond the minimum; with a minimum that is not below the maximum,
    the digits of the rounded fractional part, however few. *)
Theorem formatNumber_fraction_bounds fuel f a major :
  groupMajorDigits fuel f (integerPart f a) = Ok major →
  (length (fractionalPart f a) ≤ N.to_nat (effectiveMax f a))%nat →
  ∃ minor,
    formatNumber fuel f a =
      Ok (localizeDigits f
            (major ++ if decide (minor = []) then []
                      else decimalSeparator (format f) ++ minor)) ∧
    len minor ≤ Z.of_N (effectiveMax f a) ∧
    ((effectiveMin f a < effectiveMax f a)%N →
     Z.of_N (effectiveMin f a) ≤ len minor ∧
     (Z.of_N (effectiveMin f a) < len minor → last minor ≠ Some "0"%char)) ∧
    (¬ (effectiveMin f a < effectiveMax f a)%N → minor = fractionalPart f a).
Proof.
  intros Hmajor Hfrac. exists (minorDigitsOf f a).
  rewrite formatNumber_unfold, Hmajor. cbn [rbind]. split; [done|].
  unfold minorDigitsOf.
  destruct (decide (effectiveMin f a < effectiveMax f a)%N) as [Hlt|Hge].
  2:{ split; [unfold len; lia|]. split; [done|done]. }
  cbv zeta.
  destruct (TrimRight_spec (fractionalPart f a) (lit "0")) as (rest & Hs & _ & Hlast).
  assert (Hkept : (length (TrimRight (fractionalPart f a) (lit "0"))
                   ≤ length (fractionalPart f a))%nat).
  { rewrite Hs at 2. rewrite length_app. lia. }
  case_decide as Hshort.
  - rewrite Repeat_zero. unfold len in *. rewrite length_app, length_replicate.
    split; [lia|]. split; [|done]. intros _. split; lia.
  - unfold len in *. split; [lia|]. split; [|done]. intros _. split; [lia|].
    intros _ Hz. apply (Hlast _ Hz). by apply list_elem_of_singleton.
Qed.

End MoreNumber.

Section MoreLocalize.
Context `{C : Collaborators}.
Implicit Types (f : Formatter) (s t : gostring) (ns : numberingSystem).

Lemma localized_plain ns s :
  Forall (λ c, digitValue c = None) s → mjoin (localizedByte ns <$> s) = s.
Proof.
  induction 1 as [|c s Hc _ IH]; [done|].
  change (mjoin (localizedByte ns <$> c :: s))
    with (localizedByte ns c ++ mjoin (localizedByte ns <$> s)).
  unfold localizedByte at 1. by rewrite Hc, IH.
Qed.

(** X8: [localizeDigits] works byte by byte: the localized
    concatenation of two strings is the concatenation of the localized
    strings; and it is idempotent. *)
Theorem localizeDigits_compose f s t :
  localizeDigits f (s ++ t) = localizeDigits f s ++ localizeDigits f t ∧
  localizeDigits f (localizeDigits f s) = localizeDigits f s.
Proof.
  destruct (decide (numSystem (format f) = numLatn)) as [Hns|Hns].
  - by rewrite !localizeDigits_latn.
  - split.
    + rewrite !localizeDigits_other by done. by rewrite fmap_app, join_app.
    + rewrite (localizeDigits_other f (localizeDigits f s)) by done.
      apply localized_plain. by apply localizeDigits_no_digit.
Qed.

(** The glyphs of a numbering system make a code: they are different
    from each other, of one length, and made of bytes that are not
    ASCII. *)
Lemma glyphs_code ns :
  ns ≠ numLatn →
  Forall (λ g, g ≠ [] ∧ length g = length (default [] (glyphs ns !! 0%nat)) ∧
               Forall (λ c, (128 ≤ nat_of_ascii c)%nat) g) (glyphs ns) ∧
  NoDup (glyphs ns).
Proof.
  intros Hns.
  assert (H : bool_decide
    (Forall (λ g : gostring, g ≠ [] ∧ length g = length (default [] (glyphs ns !! 0%nat)) ∧
                 Forall (λ c, (128 ≤ nat_of_ascii c)%nat) g) (glyphs ns) ∧
     NoDup (glyphs ns)) = true)
    by (destruct ns; try done; vm_compute; reflexivity).
  by apply bool_decide_eq_true in H.
Qed.

Lemma localizedByte_digit ns c d :
  ns ≠ numLatn → digitValue c = Some d →
  ∃ g, glyphs ns !! d = Some g ∧ localizedByte ns c = g ∧ c = ascii_of_nat (48 + d).
Proof.
  intros Hns Hc. destruct (digitValue_cases c) as [Hn|(d' & Hd & Heq & Hc')]; [congruence|].
  assert (d' = d) as -> by congruence.
  destruct (glyphs_table ns Hns) as [Hlen _].
  destruct (lookup_lt_is_Some_2 (glyphs ns) d) as [g Hg]; [lia|].
  exists g. unfold localizedByte. by rewrite Hc, Hg.
Qed.

Lemma localized_inj ns :
  ns ≠ numLatn →
  ∀ s t, Forall (λ c, (nat_of_ascii c < 128)%nat) s →
         Forall (λ c, (nat_of_ascii c < 128)%nat) t →
         mjoin (localizedByte ns <$> s) = mjoin (localizedByte ns <$> t) → s = t.
Proof.
  intros Hns. destruct (glyphs_code ns Hns) as [Hcode Hnodup].
  rewrite Forall_forall in Hcode.
  assert (Hne : ∀ c, localizedByte ns c ≠ []).
  { intros c. destruct (digitValue c) as [d|] eqn:Hc.
    - destruct (localizedByte_digit ns c d Hns Hc) as (g & Hg & -> & _).
      apply (Hcode g). by eapply list_elem_of_lookup_2.
    - unfold localizedByte. by rewrite Hc. }
  assert (Hmix : ∀ c1 d c2 r1 r2, digitValue c1 = Some d → digitValue c2 = None →
                   (nat_of_ascii c2 < 128)%nat →
                   localizedByte ns c1 ++ r1 = localizedByte ns c2 ++ r2 → False).
  { intros c1 d c2 r1 r2 H1 H2 Hc2 Heq.
    destruct (localizedByte_digit ns c1 d Hns H1) as (g & Hg & Hl & _).
    rewrite Hl in Heq. unfold localizedByte in Heq. rewrite H2 in Heq.
    destruct (Hcode g) as (Hg1 & _ & Hg3); [by eapply list_elem_of_lookup_2|].
    destruct g as [|x g]; [done|]. simpl in Heq. injection Heq as -> _.
    apply Forall_cons in Hg3 as [Hx _]. lia. }
  induction s as [|c1 s IH]; intros [|c2 t] Hs Ht Heq; simpl in Heq.
  - done.
  - symmetry in Heq. apply app_nil in Heq as [Heq _]. by apply Hne in Heq.
  - apply app_nil in Heq as [Heq _]. by apply Hne in Heq.
  - apply Forall_cons in Hs as [Hc1 Hs]. apply Forall_cons in Ht as [Hc2 Ht].
    destruct (digitValue c1) as [d1|] eqn:H1; destruct (digitValue c2) as [d2|] eqn:H2.
    + destruct (localizedByte_digit ns c1 d1 Hns H1) as (g1 & Hg1 & Hl1 & ->).
      destruct (localizedByte_digit ns c2 d2 Hns H2) as (g2 & Hg2 & Hl2 & ->).
      rewrite Hl1, Hl2 in Heq.
      apply app_inj_1 in Heq as [-> Heq].
      2:{ destruct (Hcode g1) as (_ & -> & _); [by eapply list_elem_of_lookup_2|].
          destruct (Hcode g2) as (_ & -> & _); [by eapply list_elem_of_lookup_2|]. done. }
      assert (d1 = d2) as -> by (by eapply NoDup_lookup).
      f_equal. by apply IH.
    + exfalso. by eapply (Hmix c1 d1 c2).
    + exfalso. symmetry in Heq. by eapply (Hmix c2 d2 c1).
    + unfold localizedByte in Heq. rewrite H1, H2 in Heq. simpl in Heq.
      injection Heq as -> Heq. f_equal. by apply IH.
Qed.

(** X9: localized digits can be told apart: on ASCII strings
    [localizeDigits] is injective, in every numbering system. *)
Theorem localizeDigits_injective f s t :
  Forall (λ c, (nat_of_ascii c < 128)%nat) s →
  Forall (λ c, (nat_of_ascii c < 128)%nat) t →
  localizeDigits f s = localizeDigits f t → s = t.
Proof.
  intros Hs Ht. destruct (decide (numSystem (format f) = numLatn)) as [Hns|Hns].
  - by rewrite !localizeDigits_latn.
  - rewrite !localizeDigits_other by done. by apply localized_inj.
Qed.

End MoreLocalize.

Section MoreSign.
Context `{C : Collaborators}.
Implicit Types (f : Formatter) (a b : Amount) (s g code cur : gostring) (h : heap).

Lemma substitute_minus f num cur p :
  cur ≠ [] →
  substitute f num cur (lit "-" ++ p) = minusSign (format f) ++ substitute f num cur p.
Proof.
  intros Hcur. unfold substitute. rewrite !decide_False by done. reflexivity.
Qed.

(** X13: without a negative sub-pattern in the rule set, and with a
    formatted currency that is not empty, the rendering of a negative
    amount is the minus sign of the rule set followed by the rendering of
    the amount times -1. *)
Theorem Format_negative_prefix fuel f a b h cur :
  IsNegative a = true → IsNegative b = false → (Mul a (lit "-1")).1 = b →
  length (subPatterns f) = 1%nat →
  formatCurrency f (CurrencyCode b) h = Ok (cur, h) → cur ≠ [] →
  Format fuel f a h =
  match Format fuel f b h with
  | Ok (out, h') => Ok (minusSign (format f) ++ out, h')
  | Panic => Panic
  | OutOfFuel => OutOfFuel
  end.
Proof.
  intros Ha Hb Hmul Hone Hcur Hne. rewrite formatCurrency_spec in Hcur.
  injection Hcur as Hcur. rewrite !Format_unfold. unfold magnitude.
  rewrite Ha, Hb, Hmul, Hcur.
  destruct (formatNumber fuel f b) as [num| |]; [|done..].
  rewrite (proj1 (negativePattern_spec f) Hone). by rewrite substitute_minus.
Qed.

(** X14: the formatters that [NewFormatter] makes for [en-US] and for
    [en] format every number alike and choose the same pattern for every
    amount. *)
Theorem NewFormatter_en_US_en fuel h f1 h1 f2 h2 :
  NewFormatter fuel enUSLocale h = Ok (f1, h1) →
  NewFormatter fuel enLocale h = Ok (f2, h2) →
  ∀ fuel' a, formatNumber fuel' f1 a = formatNumber fuel' f2 a ∧
             getPattern f1 a = getPattern f2 a.
Proof.
  unfold NewFormatter, mbind, lift, makeMap, mret.
  rewrite <- (resolveFormat_normalize fuel enUSLocale). unfold normalize.
  rewrite decide_True by done.
  destruct (resolveFormat fuel enLocale) as [fmt| |]; [|done..].
  intros [= <- _] [= <- _] fuel' a. done.
Qed.

End MoreSign.

(** * The theorems at work on the concrete collaborators *)

Module Instances.
Import Demo.

Example NewFormatter_en_US : NewFormatter 8 (loc_ "en" "US") ∅ = Ok (enFormatter, heap1).
Proof. vm_compute. reflexivity. Qed.

Example NewFormatter_fr_FR : NewFormatter 8 (loc_ "fr" "FR") ∅ = Ok (frFormatter, heap1).
Proof. vm_compute. reflexivity. Qed.

Example NewFormatter_bn : NewFormatter 8 (loc_ "bn" "") ∅ = Ok (bnFormatter, heap1).
Proof. vm_compute. reflexivity. Qed.

(** The empty locale has no rule set and no parent: the formatter gets
    the zero value, and renders every amount as the empty string. *)
Example NewFormatter_empty :
  NewFormatter 8 (loc_ "" "") ∅ = Ok (formatterOf (loc_ "" "") zeroFormat, heap1).
Proof. vm_compute. reflexivity. Qed.

Example render_empty_locale : render (loc_ "" "") id (amt false 12345 1 "USD") = Ok ""%string.
Proof. vm_compute. reflexivity. Qed.

(** The examples of the specification. *)
Example render_default : render (loc_ "en" "US") id (amt false 12345 1 "USD") = Ok "$1,234.50"%string.
Proof. vm_compute. reflexivity. Qed.

Example render_code :
  render (loc_ "en" "US") (withDisplay DisplayCode) (amt false 12345 1 "USD")
  = Ok "USD1,234.50"%string.
Proof. vm_compute. reflexivity. Qed.

Example render_negative : render (loc_ "en" "US") id (amt true 12345 1 "USD") = Ok "-$1,234.50"%string.
Proof. vm_compute. reflexivity. Qed.

Example render_trim_whole :
  render (loc_ "en" "") (withDigits 0 2) (amt false 1000 2 "USD") = Ok "$10"%string.
Proof. vm_compute. reflexivity. Qed.

Example render_trim_half :
  render (loc_ "en" "") (withDigits 0 2) (amt false 1050 2 "USD") = Ok "$10.5"%string.
Proof. vm_compute. reflexivity. Qed.

Example render_pad :
  render (loc_ "en" "") (withDigits 2 6) (amt false 105 1 "USD") = Ok "$10.50"%string.
Proof. vm_compute. reflexivity. Qed.

(** A minimum above the maximum: the rounded digits stay as they are. *)
Example render_min_above_max :
  render (loc_ "en" "") (withDigits 3 1) (amt false 10567 3 "USD") = Ok "$10.6"%string.
Proof. vm_compute. reflexivity. Qed.

Example render_bengali :
  render (loc_ "bn" "") (withDisplay DisplayNone) (amt false 1234 0 "JPY") = Ok "১,২৩৪"%string.
Proof. vm_compute. reflexivity. Qed.

Example render_bengali_groups :
  render (loc_ "bn" "") (withDisplay DisplayCode) (amt false 123456789 2 "EUR")
  = Ok "১২,৩৪,৫৬৭.৮৯EUR"%string.
Proof. vm_compute. reflexivity. Qed.

Example render_no_currency :
  render (loc_ "fr" "FR") (withDisplay DisplayNone) (amt true 12345 1 "EUR") = Ok "-1 234,50"%string.
Proof. vm_compute. reflexivity. Qed.

Example render_with_currency :
  render (loc_ "fr" "FR") id (amt true 12345 1 "EUR") = Ok "-1 234,50 €"%string.
Proof. vm_compute. reflexivity. Qed.

Example render_negative_pattern :
  render (loc_ "en" "CH") id (amt true 123456789 2 "USD") = Ok "$-1’234’567.89"%string.
Proof. vm_compute. reflexivity. Qed.

Example render_min_grouping :
  render (loc_ "es" "") (withDisplay DisplayNone) (amt false 123450 2 "EUR") = Ok "1234,50"%string.
Proof. vm_compute. reflexivity. Qed.

Example groupMajorDigits_3_2 :
  groupMajorDigits 7 bnFormatter (lit "1234567") = Ok (lit "12,34,567").
Proof. vm_compute. reflexivity. Qed.

(** ** C1 *)

Lemma groupMajorDigits_groups_witness :
  ∃ groups last,
    groupMajorDigits 7 bnFormatter (lit "1234567") = Ok (Join (groups ++ [last]) (lit ",")) ∧
    mjoin groups ++ last = lit "1234567" ∧ len last = 3 ∧ secondaryGroups 2 groups.
Proof.
  destruct (groupMajorDigits_groups 7 bnFormatter (lit "1234567")) as [_ H];
    [reflexivity | done |].
  apply H; [by vm_compute | done | simpl; lia].
Defined.

(** The rule set of [en] in [stuckTable] has grouping enabled and a
    secondary size of zero: for the four digits of 1234, which are long
    enough to be grouped, [groupMajorDigits] has no output, whatever the
    fuel. *)
Lemma groupMajorDigits_groups_cex :
  NewFormatter (C := stuck) 1 (loc_ "en" "") ∅ = Ok (stuckFormatter, heap1) ∧
  NoGrouping stuckFormatter = false ∧
  primaryGroupingSize (format stuckFormatter) = 3%N ∧
  minGroupingDigits (format stuckFormatter) = 1%N ∧
  ¬ ∃ fuel out, groupMajorDigits fuel stuckFormatter (lit "1234") = Ok out.
Proof.
  split; [vm_compute; reflexivity|]. do 3 (split; [reflexivity|]).
  intros (fuel & out & H).
  rewrite groupMajorDigits_diverges in H; [done | done | done | done | by vm_compute..].
Qed.

(** ** C10 *)

Lemma groupMajorDigits_termination_witness :
  (∃ out, groupMajorDigits 7 bnFormatter (lit "1234567") = Ok out) ∧
  (∀ fuel, groupMajorDigits fuel stuckFormatter (lit "1234") = OutOfFuel).
Proof.
  split.
  - apply (proj1 (groupMajorDigits_termination bnFormatter (lit "1234567")));
      [done | simpl; lia].
  - apply (proj2 (groupMajorDigits_termination stuckFormatter (lit "1234")));
      [done | done | done | by vm_compute..].
Defined.

(** The rule set of [en] in [edgeTable] has a secondary size of zero, a
    primary size of three and no minimum of grouping digits: the three
    digits of 123 are long enough to be grouped, and [groupMajorDigits]
    returns them, without a single step of its loop. *)
Lemma groupMajorDigits_termination_cex :
  NewFormatter (C := edge) 1 (loc_ "en" "") ∅ = Ok (edgeFormatter, heap1) ∧
  NoGrouping edgeFormatter = false ∧
  primaryGroupingSize (format edgeFormatter) = 3%N ∧
  secondaryGroupingSize (format edgeFormatter) = 0%N ∧
  Z.of_N (minGroupingDigits (format edgeFormatter))
    + Z.of_N (primaryGroupingSize (format edgeFormatter)) ≤ len (lit "123") ∧
  groupMajorDigits 0 edgeFormatter (lit "123") = Ok (lit "123").
Proof.
  split; [vm_compute; reflexivity|]. do 3 (split; [reflexivity|]).
  split; [by vm_compute | vm_compute; reflexivity].
Qed.

(** ** C2 *)

Lemma formatNumber_fraction_witness :
  formatNumber 2 (withDigits 0 2 enFormatter) (amt false 1000 2 "USD") = Ok (lit "10") ∧
  ∃ minor,
    formatNumber 2 (withDigits 0 2 enFormatter) (amt false 1050 2 "USD")
    = Ok (lit "10" ++ if decide (minor = []) then [] else lit "." ++ minor) ∧
    ∃ kept zeros, lit "50" = kept ++ replicate zeros "0"%char ∧
                  (∀ c, last kept = Some c → c ≠ "0"%char) ∧
                  minor = kept ++ replicate (Z.to_nat (0 - len kept)) "0"%char.
Proof.
  split.
  - destruct (formatNumber_fraction 2 (withDigits 0 2 enFormatter)
                (amt false 1000 2 "USD") (lit "10")) as (minor & _ & _ & _ & H);
      [vm_compute; reflexivity|].
    apply H; [reflexivity | vm_compute; lia | by vm_compute; repeat constructor].
  - destruct (formatNumber_fraction 2 (withDigits 0 2 enFormatter)
                (amt false 1050 2 "USD") (lit "10")) as (minor & Hrun & Hlt & _);
      [vm_compute; reflexivity|].
    exists minor. split; [exact Hrun|]. apply Hlt. reflexivity.
Defined.

(** ** C3 *)


Example render_negated_sign :
  Format 64 nlFormatter (amt false 12345 1 "EUR") heap1 = Ok (lit "€ 1.234,50", heap1) ∧
  Format 64 nlFormatter (amt true 12345 1 "EUR") heap1 = Ok (lit "€ -1.234,50", heap1).
Proof. split; vm_compute; reflexivity. Qed.


(** ** C4 *)

Lemma rank_decreases (l : locale_t) :
  isEmpty (getParent (normalize l)) = false →
  (rank (getParent (normalize l)) < rank l)%nat.
Proof.
  unfold normalize. simpl. case_decide as Hus; [subst l; by vm_compute|].
  destruct l as [lang reg]. unfold getParent, localeString, rank. simpl.
  destruct reg as [|r reg]; simpl.
  - case_decide as Hen; [by vm_compute|]. intros _. simpl. lia.
  - case_decide as Hen; [by vm_compute|]. intros _. simpl. case_decide; lia.
Qed.

Lemma NewFormatter_total_witness :
  ∃ fmt,
    NewFormatter 3 (loc_ "fr" "FR") ∅ =
      Ok ({| locale := loc_ "fr" "FR"; format := fmt; NoGrouping := false;
             MinDigits := DefaultDigits; MaxDigits := 6;
             CurrencyDisplay := DisplaySymbol;
             SymbolMap := Some (fresh (dom (∅ : heap))) |},
          <[fresh (dom (∅ : heap)) := ∅]> (∅ : heap)) ∧
    resolves (loc_ "fr" "FR") fmt.
Proof.
  destruct (NewFormatter_total (C := collaborators) rank 3 (loc_ "fr" "FR") ∅ rank_decreases)
    as [(fmt & Hrun & Hres & _) _]; [vm_compute; lia|].
  exists fmt. split; [exact Hrun | exact Hres].
Defined.

(** ** C5 *)

Lemma formatCurrency_modes_witness :
  formatCurrency enFormatter (lit "USD") heapUSD = Ok (lit "US$", heapUSD) ∧
  formatCurrency enFormatter (lit "EUR") heapUSD = Ok (lit "€", heapUSD) ∧
  formatCurrency (withDisplay DisplayCode enFormatter) (lit "USD") heapUSD
  = Ok (lit "USD", heapUSD) ∧
  formatCurrency (withDisplay 7%N enFormatter) (lit "USD") heapUSD = Ok ([], heapUSD).
Proof.
  split; [|split; [|split]].
  - destruct (formatCurrency_modes enFormatter (lit "USD") heapUSD) as [H _].
    apply H; [reflexivity | vm_compute; reflexivity].
  - destruct (formatCurrency_modes enFormatter (lit "EUR") heapUSD) as [H _].
    apply H; [reflexivity | vm_compute; reflexivity].
  - destruct (formatCurrency_modes (withDisplay DisplayCode enFormatter) (lit "USD") heapUSD)
      as (_ & H & _).
    apply H. reflexivity.
  - destruct (formatCurrency_modes (withDisplay 7%N enFormatter) (lit "USD") heapUSD)
      as (_ & _ & H & _).
    apply H; by vm_compute.
Defined.

(** ** C6 *)

Lemma localizeDigits_spec_witness :
  localizeDigits enFormatter (lit "1,234.50") = lit "1,234.50" ∧
  localizeDigits bnFormatter (lit "1,234") = mjoin (localizedByte numBeng <$> lit "1,234") ∧
  Forall (λ c, digitValue c = None) (localizeDigits bnFormatter (lit "1,234")).
Proof.
  split.
  - apply (proj1 (localizeDigits_spec enFormatter (lit "1,234.50"))). reflexivity.
  - destruct (proj2 (localizeDigits_spec bnFormatter (lit "1,234"))) as (_ & H1 & H2 & _);
      [by vm_compute|].
    split; [exact H1 | exact H2].
Defined.

(** ** C7 *)

Lemma Format_no_dangling_space_witness :
  ∃ out,
    Format 64 (withDisplay DisplayNone frFormatter) (amt true 12345 1 "EUR") heap1
    = Ok (out, heap1) ∧
    noLeadingSpace out ∧ noTrailingSpace out.
Proof.
  destruct (Format_no_dangling_space 64 (withDisplay DisplayNone frFormatter)
              (amt true 12345 1 "EUR") heap1) as (Htrim & Hret & _);
    [vm_compute; reflexivity|].
  destruct Hret as [out Hout]; [done | vm_compute; lia |].
  exists out. split; [exact Hout | exact (Htrim out heap1 Hout)].
Defined.

(** ** C8 *)

Lemma Format_pure_witness :
  ∃ r : result gostring,
    Format 64 enFormatter (amt false 12345 1 "USD") heap1 = (out ←r r; Ok (out, heap1)) ∧
    Format 64 enFormatter (amt false 12345 1 "USD") (<[2%positive := ∅]> heap1)
    = (out ←r r; Ok (out, <[2%positive := ∅]> heap1)).
Proof.
  destruct (Format_pure 64 enFormatter (amt false 12345 1 "USD") ∅) as [r Hr].
  exists r. split; apply Hr; vm_compute; reflexivity.
Defined.

(** ** X1, X2 *)

Lemma NewFormatter_Locale_witness :
  Formatter_Locale frFormatter = loc_ "fr" "FR" ∧
  ∀ code, formatCurrency frFormatter code heap1
          = Ok ((getSymbol code (loc_ "fr" "FR")).1, heap1).
Proof.
  destruct (NewFormatter_Locale (C := collaborators) 8 (loc_ "fr" "FR") ∅ frFormatter heap1) as (H1 & _ & H3);
    [vm_compute; reflexivity|].
  split; [exact H1 | exact H3].
Defined.

Lemma NewFormatter_own_map_witness :
  SymbolMap enFormatter ≠ SymbolMap frFormatter2 ∧
  deref heap2USD (SymbolMap frFormatter2) = ∅ ∧
  formatCurrency frFormatter2 (lit "USD") heap2USD = Ok (lit "US$", heap2USD).
Proof.
  destruct (NewFormatter_own_map (C := collaborators) 8 8 (loc_ "en" "US") (loc_ "fr" "FR") ∅
              enFormatter heap1 frFormatter2 heap2 (lit "USD") (lit "US$") heap2USD)
    as (H1 & _ & _ & H4 & H5); [vm_compute; reflexivity..|].
  split; [exact H1|]. split; [exact H4 | exact (H5 (lit "USD"))].
Defined.

(** ** X3, X4, X12 *)

Lemma Format_zero_format_witness :
  Format 0 zeroFormatter (amt true 12345 1 "USD") heap1 = Ok ([], heap1).
Proof. apply (Format_zero_format 0 zeroFormatter). reflexivity. Defined.

Lemma Format_total_witness :
  ∃ out, Format 64 bnFormatter (amt true 123456789 2 "EUR") heap1 = Ok (out, heap1).
Proof.
  apply (Format_total 64 bnFormatter (amt true 123456789 2 "EUR") heap1);
    [done | vm_compute; lia].
Defined.

Lemma Format_hangs_witness :
  Format 1000 stuckFormatter (amt false 123456 2 "USD") heap1 = OutOfFuel.
Proof.
  apply (Format_hangs stuckFormatter (amt false 123456 2 "USD") heap1);
    [reflexivity | done | reflexivity | by vm_compute..].
Defined.

(** ** X5, X6 *)

Lemma groupMajorDigits_keeps_digits_witness :
  filter (λ c, c ∉ lit ",") (lit "12,34,567") = lit "1234567".
Proof.
  apply (groupMajorDigits_keeps_digits 7 bnFormatter (lit "1234567") (lit "12,34,567"));
    [vm_compute; reflexivity|].
  assert (H : bool_decide (Forall (λ c, c ∉ groupingSeparator (format bnFormatter))
                             (lit "1234567")) = true) by (vm_compute; reflexivity).
  by apply bool_decide_eq_true in H.
Defined.

Lemma groupMajorDigits_length_witness :
  ∃ out, groupMajorDigits 7 bnFormatter (lit "1234567") = Ok out ∧ len out = 9.
Proof.
  apply (groupMajorDigits_length 7 bnFormatter (lit "1234567"));
    [reflexivity | done | done | by vm_compute | simpl; lia].
Defined.

(** ** X7 *)

Lemma formatNumber_fraction_bounds_witness :
  ∃ minor,
    formatNumber 2 (withDigits 1 4 enFormatter) (amt false 105000 4 "USD")
    = Ok (lit "10" ++ if decide (minor = []) then [] else lit "." ++ minor) ∧
    len minor ≤ 4 ∧ 1 ≤ len minor ∧ (1 < len minor → last minor ≠ Some "0"%char).
Proof.
  destruct (formatNumber_fraction_bounds 2 (withDigits 1 4 enFormatter)
              (amt false 105000 4 "USD") (lit "10")) as (minor & Hrun & Hmax & Hlt & _);
    [vm_compute; reflexivity | vm_compute; lia |].
  exists minor. split; [exact Hrun|]. split; [exact Hmax|]. apply Hlt. reflexivity.
Defined.

(** ** X9 *)

Lemma localizeDigits_injective_witness : lit "1,234.50" = lit "1,234.50".
Proof.
  assert (H : bool_decide (Forall (λ c, (nat_of_ascii c < 128)%nat) (lit "1,234.50"))
              = true) by (vm_compute; reflexivity).
  apply bool_decide_eq_true in H.
  exact (localizeDigits_injective bnFormatter (lit "1,234.50") (lit "1,234.50")
           H H eq_refl).
Defined.

(** ** X10, X11 *)

Lemma formatCurrency_override_witness :
  formatCurrency enFormatter (lit "USD") heapUSD = Ok (lit "US$", heapUSD).
Proof.
  destruct (formatCurrency_override enFormatter (lit "USD") (lit "US$") heap1 heapUSD)
    as [H _]; [vm_compute; reflexivity | reflexivity |].
  exact H.
Defined.

Lemma Format_reads_one_entry_witness :
  Format 64 (withDisplay DisplayCode enFormatter) (amt false 12345 1 "USD") heapUSD =
  match Format 64 (withDisplay DisplayCode enFormatter) (amt false 12345 1 "USD") heap1 with
  | Ok (out, _) => Ok (out, heapUSD)
  | Panic => Panic
  | OutOfFuel => OutOfFuel
  end.
Proof.
  apply (Format_reads_one_entry 64 (withDisplay DisplayCode enFormatter)
           (amt false 12345 1 "USD") heap1 heapUSD).
  left. by vm_compute.
Defined.

(** ** X13, X14 *)

Lemma Format_negative_prefix_witness :
  Format 64 enFormatter (amt true 12345 1 "USD") heap1 =
  match Format 64 enFormatter (amt false 12345 1 "USD") heap1 with
  | Ok (out, h') => Ok (lit "-" ++ out, h')
  | Panic => Panic
  | OutOfFuel => OutOfFuel
  end.
Proof.
  apply (Format_negative_prefix 64 enFormatter (amt true 12345 1 "USD")
           (amt false 12345 1 "USD") heap1 (lit "$"));
    [reflexivity | reflexivity | reflexivity | reflexivity | vm_compute; reflexivity | done].
Defined.

Lemma NewFormatter_en_US_en_witness :
  formatNumber 64 enFormatter (amt false 12345 1 "USD")
  = formatNumber 64 enFormatter' (amt false 12345 1 "USD").
Proof.
  apply (NewFormatter_en_US_en (C := collaborators) 8 ∅ enFormatter heap1 enFormatter' heap1);
    vm_compute; reflexivity.
Defined.

Example render_grouped_digits :
  groupMajorDigits 9 enFormatter (lit "123456789") = Ok (lit "123,456,789").
Proof. vm_compute. reflexivity. Qed.

End Instances.
